(** * resolve-vars: a cache of Consul variables

    A shallow embedding of [src/index.js].  The file holds two revisions of
    the [Resolver] class:

    - the list variant (module [Simple]): [task] takes an array of names,
      every name is its own Consul key, and the cache maps a name to its
      value;
    - the mapped variant (module [Mapped]): [task] takes an object of
      local name / remote path pairs, and the cache maps a name to an
      entry object [{path, value}].

    The Consul client and the promises the methods create are modelled by
    an explicit [runtime]: the requests handed to [this._consul.kv] with
    their callbacks, the promises built by [new Promise], and the
    aggregates built by [Promise.all].  The client answers a request by
    invoking its callback ([deliver]), once per request; answers may arrive
    in any order.  The reactions to a settlement (those of [Promise.all] and
    the [then] and [catch] chained on it) are taken together with the
    callback that settles the promise: no method of the resolver can run
    between them. *)

From Stdlib Require Import ZArith ssreflect.
From stdpp Require Import base strings gmap list.

#[local] Open Scope general_if_scope.
#[local] Set Warnings "-rewrite-rw".

(** ** JavaScript values *)

Inductive jsval : Type :=
  | JUndefined
  | JNull
  | JBool (b : bool)
  | JNum (n : Z)
  | JStr (s : string)
  | JErr (msg : string)
  | JInherited (name : string).

Global Instance jsval_eq_dec : EqDecision jsval.
Proof. solve_decision. Defined.

(** [if (v)]: an [Error] object and a function are truthy, the empty string
    and zero are not. *)
Definition truthy (v : jsval) : bool :=
  match v with
  | JUndefined | JNull => false
  | JBool b => b
  | JNum n => negb (Z.eqb n 0)
  | JStr s => negb (String.eqb s EmptyString)
  | JErr _ => true
  | JInherited _ => true
  end.

(** The methods every object inherits from [Object.prototype]: reading
    [o[name]] on an object [o] that has no own property [name] yields the
    inherited function, [JInherited name], for these names and [undefined]
    for any other; assigning [o[name] = v] creates an own property that
    shadows it.  (The accessor [__proto__] is not modelled: it is treated as
    any other name.) *)
Definition Object_prototype : list string :=
  ["constructor"; "__defineGetter__"; "__defineSetter__"; "hasOwnProperty";
   "__lookupGetter__"; "__lookupSetter__"; "isPrototypeOf";
   "propertyIsEnumerable"; "toString"; "valueOf"; "toLocaleString"].

(** An object literal such as the argument of the mapped [task]: its own
    enumerable properties, in the order [Object.keys] lists them.  An object
    carries each key once ([NoDup (Object_keys o)]). *)
Definition jsobj : Type := list (string * jsval).

Definition Object_keys (o : jsobj) : list string := o.*1.

(** [o[k]] *)
Fixpoint obj_get (o : jsobj) (k : string) : jsval :=
  match o with
  | [] => JUndefined
  | (k', v) :: o' => if decide (k' = k) then v else obj_get o' k
  end.

(** ** The Consul key/value client *)

(** A call on [this._consul.kv]. *)
Inductive rcall : Type :=
  | KvGet (key : jsval)
  | KvSet (key val : jsval).

(** The second argument [res] of a [kv.get] callback: [undefined] when the
    key is not set, else the item, of which only [Value] is read. *)
Inductive getres : Type :=
  | ResUndefined
  | ResItem (Value : jsval).

Global Instance rcall_eq_dec : EqDecision rcall.
Proof. solve_decision. Defined.

Global Instance getres_eq_dec : EqDecision getres.
Proof. solve_decision. Defined.

(** [res && res.Value] *)
Definition res_and_Value (res : getres) : jsval :=
  match res with
  | ResUndefined => JUndefined
  | ResItem v => v
  end.

(** A request the client has accepted, with the callback it will invoke
    (once) and whether it has done so. *)
Record request (K : Type) : Type := Request {
  req_call : rcall;
  req_cb : K;
  req_done : bool
}.
Arguments Request {K} _ _ _.
Arguments req_call {K} _.
Arguments req_cb {K} _.
Arguments req_done {K} _.

(** ** Promises *)

Inductive pstate : Type :=
  | Pending
  | Fulfilled (v : jsval)
  | Rejected (e : jsval).

Global Instance pstate_eq_dec : EqDecision pstate.
Proof. solve_decision. Defined.

(** The promise returned by [Promise.all]. *)
Inductive all_state : Type :=
  | AllPending
  | AllFulfilled (vals : list jsval)
  | AllRejected (e : jsval).

Record group : Type := Group {
  members : list nat;
  all_st : all_state
}.

(** Requests are numbered by their position in [requests], promises by
    their position in [promises], aggregates by their position in
    [groups]. *)
Record runtime (K : Type) : Type := Runtime {
  requests : list (request K);
  promises : list pstate;
  groups : list group
}.
Arguments Runtime {K} _ _ _.
Arguments requests {K} _.
Arguments promises {K} _.
Arguments groups {K} _.

Section Runtime.
Context {K : Type}.

Definition empty_runtime : runtime K := Runtime [] [] [].

(** The calls made on the client so far, oldest first. *)
Definition calls (rt : runtime K) : list rcall := req_call <$> requests rt.

(** [new Promise(...)]: a fresh pending promise. *)
Definition new_promise (rt : runtime K) : nat * runtime K :=
  (length (promises rt),
   Runtime (requests rt) (promises rt ++ [Pending]) (groups rt)).

(** [this._consul.kv.get(key, cb)] and [this._consul.kv.set(key, val, cb)]:
    the client records the call and keeps the callback. *)
Definition kv_request (c : rcall) (cb : K) (rt : runtime K) : runtime K :=
  Runtime (requests rt ++ [Request c cb false]) (promises rt) (groups rt).

(** The values of the promises [ms] when all of them are fulfilled. *)
Fixpoint fulfilled_values (ps : list pstate) (ms : list nat) : option (list jsval) :=
  match ms with
  | [] => Some []
  | m :: ms' =>
      match ps !! m with
      | Some (Fulfilled v) => cons v <$> fulfilled_values ps ms'
      | _ => None
      end
  end.

Fixpoint first_rejected (ps : list pstate) (ms : list nat) : option jsval :=
  match ms with
  | [] => None
  | m :: ms' =>
      match ps !! m with
      | Some (Rejected e) => Some e
      | _ => first_rejected ps ms'
      end
  end.

(** [Promise.all(ms)] on promises that may be settled already. *)
Definition all_init (ps : list pstate) (ms : list nat) : all_state :=
  match first_rejected ps ms with
  | Some e => AllRejected e
  | None =>
      match fulfilled_values ps ms with
      | Some vals => AllFulfilled vals
      | None => AllPending
      end
  end.

Definition promise_all (ms : list nat) (rt : runtime K) : nat * runtime K :=
  (length (groups rt),
   Runtime (requests rt) (promises rt)
     (groups rt ++ [Group ms (all_init (promises rt) ms)])).

(** The reaction of an aggregate to the settlement of promise [p]: the
    first rejection rejects it, the last fulfilment fulfils it, and once
    settled it never changes. *)
Definition group_step (ps : list pstate) (p : nat) (g : group) : group :=
  match all_st g with
  | AllPending =>
      if bool_decide (p ∈ members g) then
        match ps !! p with
        | Some (Rejected e) => Group (members g) (AllRejected e)
        | Some (Fulfilled _) =>
            match fulfilled_values ps (members g) with
            | Some vals => Group (members g) (AllFulfilled vals)
            | None => g
            end
        | _ => g
        end
      else g
  | _ => g
  end.

(** [resolve(v)] / [reject(e)] of promise [p]: a no-op unless [p] is
    pending; the aggregates that wait for [p] react. *)
Definition settle (p : nat) (s : pstate) (rt : runtime K) : runtime K :=
  match promises rt !! p with
  | Some Pending =>
      let ps := <[p := s]> (promises rt) in
      Runtime (requests rt) ps (group_step ps p <$> groups rt)
  | _ => rt
  end.

(** The client is about to invoke the callback of request [id]: none if
    there is no such request or its callback has run already. *)
Definition take_callback (id : nat) (rt : runtime K) : option (K * runtime K) :=
  match requests rt !! id with
  | Some r =>
      if req_done r then None
      else Some (req_cb r,
                 Runtime (<[id := Request (req_call r) (req_cb r) true]> (requests rt))
                   (promises rt) (groups rt))
  | None => None
  end.
End Runtime.

(** ** Batches of requests

    A handle invocation issues one read per key and aggregates their
    promises.  The settlements of such a batch so far are recorded as a
    history: the position of the read in the batch and the state its promise
    took, oldest first. *)

Definition history : Type := list (nat * pstate).

Fixpoint status (D : history) (i : nat) : pstate :=
  match D with
  | [] => Pending
  | (j, s) :: D' => if decide (j = i) then s else status D' i
  end.

Fixpoint first_error (D : history) : option jsval :=
  match D with
  | [] => None
  | (_, Rejected e) :: _ => Some e
  | _ :: D' => first_error D'
  end.

Fixpoint values_of (D : history) (js : list nat) : option (list jsval) :=
  match js with
  | [] => Some []
  | j :: js' =>
      match status D j with
      | Fulfilled v => cons v <$> values_of D js'
      | _ => None
      end
  end.

(** The state of the aggregate of a batch of [n] reads after history [D]. *)
Definition agg (n : nat) (D : history) : all_state :=
  match first_error D with
  | Some e => AllRejected e
  | None =>
      match values_of D (seq 0 n) with
      | Some vals => AllFulfilled vals
      | None => AllPending
      end
  end.

(** How a callback settles its promise: [if (err) reject(err)], else
    [resolve(v)]. *)
Definition settled_by (err v : jsval) : pstate :=
  if truthy err then Rejected err else Fulfilled v.

(** The history of a run of answers to the reads of a batch whose requests
    start at number [n0]. *)
Definition hist (n0 : nat) (ds : list (nat * jsval * getres)) : history :=
  (λ d, (d.1.1 - n0, settled_by d.1.2 (res_and_Value d.2))) <$> ds.

(** The batch whose requests start at [n0], whose promises start at [np] and
    whose aggregate is [g], is in the state its history [D] prescribes;
    [reqs] lists the call and the callback of each request. *)
Definition batch_inv {K : Type} (n0 np g : nat) (reqs : list (rcall * K))
    (D : history) (rt : runtime K) : Prop :=
  (∀ i, i < length reqs → promises rt !! (np + i) = Some (status D i)) ∧
  groups rt !! g = Some (Group (seq np (length reqs)) (agg (length reqs) D)) ∧
  (∀ i c, reqs !! i = Some c →
     requests rt !! (n0 + i) = Some (Request c.1 c.2 (bool_decide (i ∈ D.*1)))).

(** ** The mapped variant: [task] takes local name / remote path pairs *)

Module Mapped.

(** A cache entry [{path, value}]; [value] is [None] while the object has
    no [value] property. *)
Record entry : Type := Entry {
  path : jsval;
  value : option jsval
}.

(** [vr.value] *)
Definition entry_value (vr : entry) : jsval := default JUndefined (value vr).

(** The callbacks [_get] and [set] hand to the client, with the variables
    they close over; [p] is the promise whose [resolve] and [reject] they
    hold. *)
Inductive callback : Type :=
  | GetCb (name : string) (p : nat)
  | SetCb (name : string) (path val : jsval) (p : nat).

(** The function [task] returns closes over [keys] and [vars]. *)
Record handle : Type := Handle {
  h_keys : list string;
  h_vars : jsobj
}.

(** [_vars] holds the own properties of the object [this._vars]; [rt] is
    the client behind [this._consul] together with the promises; [handles]
    are the functions [task] has returned so far; [inherited] holds the
    [value] properties that have been written on the functions of
    [Object_prototype] (a function has none until [_get] writes one). *)
Record world : Type := World {
  _vars : gmap string entry;
  rt : runtime callback;
  handles : list handle;
  inherited : gmap string jsval
}.

(** [new Resolver()] *)
Definition new_Resolver : world := World ∅ empty_runtime [] ∅.

Definition register (vars : jsobj) (vs : gmap string entry) (key : string)
    : gmap string entry :=
  <[key := Entry (obj_get vars key) None]> vs.

(** [task(vars)]: registers every key, returns the handle. *)
Definition task (vars : jsobj) (w : world) : nat * world :=
  let keys := Object_keys vars in
  let vs := foldl (register vars) (_vars w) keys in
  (length (handles w),
   World vs (rt w) (handles w ++ [Handle keys vars]) (inherited w)).

(** [var(name)]: [vr && vr.value]; an entry object is truthy, and so is the
    function a name of [Object_prototype] yields when there is no entry. *)
Definition var (name : string) (w : world) : jsval * world :=
  let vr := _vars w !! name in
  (match vr with
   | None =>
       if decide (name ∈ Object_prototype)
       then default JUndefined (inherited w !! name)
       else JUndefined
   | Some e => entry_value e
   end, w).

(** [_get(name, path)]: returns the new promise. *)
Definition _get (name : string) (path : jsval) (w : world) : nat * world :=
  let '(p, r) := new_promise (rt w) in
  (p, World (_vars w) (kv_request (KvGet path) (GetCb name p) r) (handles w)
        (inherited w)).

(** The first lines of [set]: with [val === undefined] the second
    argument is the value and the name is the path. *)
Definition set_args (name : string) (path val : jsval) : jsval * jsval :=
  if decide (val = JUndefined) then (JStr name, path) else (path, val).

(** [set(name, path, val)]: returns the new promise. *)
Definition set (name : string) (path val : jsval) (w : world) : nat * world :=
  let '(path, val) := set_args name path val in
  let '(p, r) := new_promise (rt w) in
  (p, World (_vars w) (kv_request (KvSet path val) (SetCb name path val p) r)
        (handles w) (inherited w)).

(** [keys.map((key) => this._get(key, vars[key]))] *)
Fixpoint get_all (vars : jsobj) (keys : list string) (w : world)
    : list nat * world :=
  match keys with
  | [] => ([], w)
  | key :: keys' =>
      let '(p, w1) := _get key (obj_get vars key) w in
      let '(ps, w2) := get_all vars keys' w1 in
      (p :: ps, w2)
  end.

(** The body of the function [task] returned, called with a completion
    handler [cb]: returns the number of the [Promise.all] aggregate, which
    identifies this invocation and its handler. *)
Definition invoke (h : handle) (w : world) : nat * world :=
  let '(ps, w1) := get_all (h_vars h) (h_keys h) w in
  let '(g, r) := promise_all ps (rt w1) in
  (g, World (_vars w1) r (handles w1) (inherited w1)).

Definition run_task (hid : nat) (w : world) : option (nat * world) :=
  h ← handles w !! hid; Some (invoke h w).

(** [.then(() => { cb(); }).catch((err) => { cb(err); })]: the arguments
    the handler of invocation [g] has been called with ([cb()] passes
    [undefined]); the handler itself does not throw. *)
Definition cb_calls (g : nat) (w : world) : list jsval :=
  match all_st <$> groups (rt w) !! g with
  | Some (AllFulfilled _) => [JUndefined]
  | Some (AllRejected e) => [e]
  | _ => []
  end.

(** What became of a callback invocation: it returned, or it threw a
    [TypeError] ([this._vars[name]] is [undefined] in [_get]). *)
Inductive outcome : Type :=
  | Returned (w : world)
  | Threw (w : world).

(** In [_get], [this._vars[name].value = val] writes the entry of [name];
    without an entry it writes the [value] of the inherited function when
    [name] is in [Object_prototype], and throws otherwise. *)
Definition run_callback (cb : callback) (err : jsval) (res : getres) (w : world)
    : outcome :=
  match cb with
  | GetCb name p =>
      if truthy err then
        Returned (World (_vars w) (settle p (Rejected err) (rt w)) (handles w)
                    (inherited w))
      else
        let val := res_and_Value res in
        match _vars w !! name with
        | Some vr =>
            Returned (World (<[name := Entry (path vr) (Some val)]> (_vars w))
                        (settle p (Fulfilled val) (rt w)) (handles w)
                        (inherited w))
        | None =>
            if decide (name ∈ Object_prototype) then
              Returned (World (_vars w) (settle p (Fulfilled val) (rt w))
                          (handles w) (<[name := val]> (inherited w)))
            else Threw w
        end
  | SetCb name path val p =>
      if truthy err then
        Returned (World (_vars w) (settle p (Rejected err) (rt w)) (handles w)
                    (inherited w))
      else
        Returned (World (<[name := Entry path (Some val)]> (_vars w))
                    (settle p (Fulfilled JUndefined) (rt w)) (handles w)
                    (inherited w))
  end.

(** The client answers request [id] with [(err, res)]. *)
Definition deliver (id : nat) (err : jsval) (res : getres) (w : world)
    : option outcome :=
  match take_callback id (rt w) with
  | Some (cb, r) =>
      Some (run_callback cb err res (World (_vars w) r (handles w) (inherited w)))
  | None => None
  end.

(** A run of answers, each to a waiting request and none throwing. *)
Fixpoint replies (ds : list (nat * jsval * getres)) (w : world) : option world :=
  match ds with
  | [] => Some w
  | (id, err, res) :: ds' =>
      match deliver id err res w with
      | Some (Returned w') => replies ds' w'
      | _ => None
      end
  end.

(** What a program and the client can do with a resolver. *)
Inductive op : Type :=
  | OTask (vars : jsobj)
  | ORun (hid : nat)
  | OVar (name : string)
  | OGet (name : string) (path : jsval)
  | OSet (name : string) (path val : jsval)
  | OReply (id : nat) (err : jsval) (res : getres).

Definition exec (w : world) (o : op) : world :=
  match o with
  | OTask vars => (task vars w).2
  | ORun hid => from_option snd w (run_task hid w)
  | OVar name => (var name w).2
  | OGet name path => (_get name path w).2
  | OSet name path val => (set name path val w).2
  | OReply id err res =>
      match deliver id err res w with
      | Some (Returned w') | Some (Threw w') => w'
      | None => w
      end
  end.

Definition run (ops : list op) (w : world) : world := foldl exec w ops.

(** The local names an operation registers, fetches or sets. *)
Definition op_names (o : op) : list string :=
  match o with
  | OTask vars => Object_keys vars
  | OGet name _ | OSet name _ _ => [name]
  | _ => []
  end.

(** The local name a callback writes to. *)
Definition cb_name (cb : callback) : string :=
  match cb with
  | GetCb name _ | SetCb name _ _ _ => name
  end.

(** The requests an invocation of the handle issues, when its promises
    start at [np]: call and callback, in the order of [keys]. *)
Definition batch_reqs (vars : jsobj) (np : nat) (keys : list string)
    : list (rcall * callback) :=
  imap (λ i key, (KvGet (obj_get vars key), GetCb key (np + i))) keys.

(** The cache during a batch over [keys] that started from the cache [vs0]:
    the entry of a key whose read has been answered without error holds the
    value, with the path it had; the others are as they were. *)
Definition cache_inv (keys : list string) (vs0 : gmap string entry) (D : history)
    (vs : gmap string entry) : Prop :=
  (∀ i key, keys !! i = Some key →
     ∃ e0, vs0 !! key = Some e0 ∧
       vs !! key = Some (match status D i with
                         | Fulfilled v => Entry (path e0) (Some v)
                         | _ => e0
                         end)) ∧
  (∀ name, name ∉ keys → vs !! name = vs0 !! name).

(** Every handle was built by [task], which registered its keys. *)
Definition registered (w : world) : Prop :=
  ∀ hid h, handles w !! hid = Some h →
    h_keys h = Object_keys (h_vars h) ∧
    ∀ key, key ∈ h_keys h → is_Some (_vars w !! key).

(** Nothing is ever removed: entries, handles and aggregates stay. *)
Definition grows (w w' : world) : Prop :=
  (∀ key, is_Some (_vars w !! key) → is_Some (_vars w' !! key)) ∧
  handles w `prefix_of` handles w' ∧
  length (groups (rt w)) ≤ length (groups (rt w')).

(** The reads a handle issues, in order. *)
Definition reads (h : handle) : list rcall :=
  (λ key, KvGet (obj_get (h_vars h) key)) <$> h_keys h.

(** Nothing in the world is about [name]: no entry, no value written on an
    inherited function of that name, no callback that would write one, no
    handle that would fetch it. *)
Definition unknown (name : string) (w : world) : Prop :=
  (_vars w !! name = None ∧ inherited w !! name = None) ∧
  (∀ id r, requests (rt w) !! id = Some r → cb_name (req_cb r) ≠ name) ∧
  (∀ hid h, handles w !! hid = Some h → name ∉ h_keys h).

End Mapped.

(** ** The list variant: every name is its own Consul key *)

Module Simple.

Inductive callback : Type :=
  | GetCb (name : string) (p : nat)
  | SetCb (name : string) (val : jsval) (p : nat).

(** The function [task] returns closes over [keys]; the cache maps a
    name to its value ([_vars] holds the own properties of [this._vars]). *)
Record world : Type := World {
  _vars : gmap string jsval;
  rt : runtime callback;
  handles : list (list string)
}.

Definition new_Resolver : world := World ∅ empty_runtime [].

(** [task(keys)]: only builds the handle. *)
Definition task (keys : list string) (w : world) : nat * world :=
  (length (handles w), World (_vars w) (rt w) (handles w ++ [keys])).

(** [var(name)]: [this._vars[name]], the own property if there is one, else
    what the object inherits. *)
Definition var (name : string) (w : world) : jsval * world :=
  (match _vars w !! name with
   | Some v => v
   | None => if decide (name ∈ Object_prototype) then JInherited name else JUndefined
   end, w).

(** [get(name)] *)
Definition get (name : string) (w : world) : nat * world :=
  let '(p, r) := new_promise (rt w) in
  (p, World (_vars w) (kv_request (KvGet (JStr name)) (GetCb name p) r)
        (handles w)).

(** [set(name, val)] *)
Definition set (name : string) (val : jsval) (w : world) : nat * world :=
  let '(p, r) := new_promise (rt w) in
  (p, World (_vars w) (kv_request (KvSet (JStr name) val) (SetCb name val p) r)
        (handles w)).

(** [keys.map((key) => this.get(key))] *)
Fixpoint get_all (keys : list string) (w : world) : list nat * world :=
  match keys with
  | [] => ([], w)
  | key :: keys' =>
      let '(p, w1) := get key w in
      let '(ps, w2) := get_all keys' w1 in
      (p :: ps, w2)
  end.

(** The body of the function [task] returned: the number of the
    [Promise.all] aggregate stands for the promise it returns. *)
Definition invoke (keys : list string) (w : world) : nat * world :=
  let '(ps, w1) := get_all keys w in
  let '(g, r) := promise_all ps (rt w1) in
  (g, World (_vars w1) r (handles w1)).

Definition run_task (hid : nat) (w : world) : option (nat * world) :=
  keys ← handles w !! hid; Some (invoke keys w).

(** [for (i...) ret[keys[i]] = vals[i]] *)
Definition build_ret (keys : list string) (vals : list jsval) : gmap string jsval :=
  foldl (λ ret kv, <[kv.1 := kv.2]> ret) ∅ (zip keys vals).

(** The promise [Promise.all(...).then((vals) => ret)]. *)
Inductive task_state : Type :=
  | TaskPending
  | TaskFulfilled (ret : gmap string jsval)
  | TaskRejected (e : jsval).

Definition task_result (keys : list string) (g : nat) (w : world) : task_state :=
  match all_st <$> groups (rt w) !! g with
  | Some (AllFulfilled vals) => TaskFulfilled (build_ret keys vals)
  | Some (AllRejected e) => TaskRejected e
  | _ => TaskPending
  end.

Definition run_callback (cb : callback) (err : jsval) (res : getres) (w : world)
    : world :=
  match cb with
  | GetCb name p =>
      if truthy err then
        World (_vars w) (settle p (Rejected err) (rt w)) (handles w)
      else
        let val := res_and_Value res in
        World (<[name := val]> (_vars w)) (settle p (Fulfilled val) (rt w))
          (handles w)
  | SetCb name val p =>
      if truthy err then
        World (_vars w) (settle p (Rejected err) (rt w)) (handles w)
      else
        World (<[name := val]> (_vars w)) (settle p (Fulfilled JUndefined) (rt w))
          (handles w)
  end.

(** The client answers request [id] with [(err, res)]. *)
Definition deliver (id : nat) (err : jsval) (res : getres) (w : world)
    : option world :=
  match take_callback id (rt w) with
  | Some (cb, r) => Some (run_callback cb err res (World (_vars w) r (handles w)))
  | None => None
  end.

Fixpoint replies (ds : list (nat * jsval * getres)) (w : world) : option world :=
  match ds with
  | [] => Some w
  | (id, err, res) :: ds' =>
      match deliver id err res w with
      | Some w' => replies ds' w'
      | None => None
      end
  end.

Inductive op : Type :=
  | OTask (keys : list string)
  | ORun (hid : nat)
  | OVar (name : string)
  | OGet (name : string)
  | OSet (name : string) (val : jsval)
  | OReply (id : nat) (err : jsval) (res : getres).

Definition exec (w : world) (o : op) : world :=
  match o with
  | OTask keys => (task keys w).2
  | ORun hid => from_option snd w (run_task hid w)
  | OVar name => (var name w).2
  | OGet name => (get name w).2
  | OSet name val => (set name val w).2
  | OReply id err res => default w (deliver id err res w)
  end.

Definition run (ops : list op) (w : world) : world := foldl exec w ops.

Definition op_names (o : op) : list string :=
  match o with
  | OTask keys => keys
  | OGet name | OSet name _ => [name]
  | _ => []
  end.

Definition cb_name (cb : callback) : string :=
  match cb with
  | GetCb name _ | SetCb name _ _ => name
  end.

(** The requests an invocation of the handle issues, when its promises
    start at [np]. *)
Definition batch_reqs (np : nat) (keys : list string) : list (rcall * callback) :=
  imap (λ i key, (KvGet (JStr key), GetCb key (np + i))) keys.

(** The cache during a batch over [keys] that started from the cache [vs0]:
    a key whose read has been answered without error holds the value; the
    others are as they were. *)
Definition cache_inv (keys : list string) (vs0 : gmap string jsval) (D : history)
    (vs : gmap string jsval) : Prop :=
  (∀ i key, keys !! i = Some key →
     vs !! key = match status D i with
                 | Fulfilled v => Some v
                 | _ => vs0 !! key
                 end) ∧
  (∀ name, name ∉ keys → vs !! name = vs0 !! name).

(** Nothing is ever removed: handles and aggregates stay. *)
Definition grows (w w' : world) : Prop :=
  handles w `prefix_of` handles w' ∧
  length (groups (rt w)) ≤ length (groups (rt w')).

(** The reads a handle issues, in order. *)
Definition reads (keys : list string) : list rcall :=
  (λ key, KvGet (JStr key)) <$> keys.

(** Nothing in the world is about [name]: no entry, no callback that would
    write one, no handle that would fetch it. *)
Definition unknown (name : string) (w : world) : Prop :=
  _vars w !! name = None ∧
  (∀ id r, requests (rt w) !! id = Some r → cb_name (req_cb r) ≠ name) ∧
  (∀ hid keys, handles w !! hid = Some keys → name ∉ keys).

End Simple.

(** * Properties of the runtime *)

Section RuntimeFacts.
Context {K : Type}.
Implicit Types rt : runtime K.

Lemma calls_settle p s rt : requests (settle p s rt) = requests rt.
Proof. unfold settle. by repeat case_match. Qed.

Lemma calls_take_callback id rt cb rt' :
  take_callback id rt = Some (cb, rt') → calls rt' = calls rt.
Proof.
  unfold take_callback, calls. intros H.
  destruct (requests rt !! id) as [r|] eqn:Hr; [|done].
  destruct (req_done r); simplify_eq/=.
  rewrite list_fmap_insert /=. apply list_insert_id.
  by rewrite list_lookup_fmap Hr.
Qed.

Lemma take_callback_promises id rt cb rt' :
  take_callback id rt = Some (cb, rt') →
  promises rt' = promises rt ∧ groups rt' = groups rt.
Proof.
  unfold take_callback. intros H.
  destruct (requests rt !! id) as [r|]; [|done].
  by destruct (req_done r); simplify_eq/=.
Qed.

Lemma status_fresh D i : i ∉ D.*1 → status D i = Pending.
Proof.
  induction D as [|[j s] D IH]; [done|]. simpl. intros Hi.
  apply not_elem_of_cons in Hi as [? ?]. case_decide; [congruence|auto].
Qed.

Lemma status_snoc D i s j :
  i ∉ D.*1 → status (D ++ [(i, s)]) j = if decide (j = i) then s else status D j.
Proof.
  induction D as [|[k t] D IH]; simpl; intros Hi.
  - repeat case_decide; congruence.
  - apply not_elem_of_cons in Hi as [? ?].
    repeat case_decide; subst; try congruence; rewrite IH //; by case_decide.
Qed.

Lemma first_error_snoc D i s :
  first_error (D ++ [(i, s)]) =
    match first_error D with
    | Some e => Some e
    | None => match s with Rejected e => Some e | _ => None end
    end.
Proof.
  induction D as [|[k t] D IH]; simpl.
  - by destruct s.
  - destruct t; auto.
Qed.

Lemma values_of_pending D js i :
  i ∈ js → status D i = Pending → values_of D js = None.
Proof.
  induction js as [|j js IH]; [by intros ?%elem_of_nil|].
  intros [->|Hi]%elem_of_cons Hs; simpl.
  - by rewrite Hs.
  - rewrite IH //. by destruct (status D j).
Qed.

Lemma fulfilled_values_status (ps : list pstate) np D js :
  (∀ j, j ∈ js → ps !! (np + j) = Some (status D j)) →
  fulfilled_values ps ((λ j, np + j) <$> js) = values_of D js.
Proof.
  induction js as [|j js IH]; [done|]. intros H. simpl.
  rewrite (H j); [apply elem_of_cons; by left|].
  rewrite IH; [|done]. intros k Hk. apply H, elem_of_cons. by right.
Qed.

Lemma first_rejected_none (ps : list pstate) ms :
  (∀ m, m ∈ ms → ∀ e, ps !! m ≠ Some (Rejected e)) → first_rejected ps ms = None.
Proof.
  induction ms as [|m ms IH]; [done|]. intros H. simpl.
  destruct (ps !! m) as [[]|] eqn:Hm; try (apply IH; intros m' Hm' e'; apply H, elem_of_cons; by right).
  exfalso. eapply (H m); [apply elem_of_cons; by left|exact Hm].
Qed.

(** The aggregate of fresh pending promises starts in the state of the
    empty history. *)
Lemma all_init_pending (ps : list pstate) np n :
  (∀ i, i < n → ps !! (np + i) = Some Pending) →
  all_init ps (seq np n) = agg n [].
Proof.
  intros H. unfold all_init, agg. simpl.
  assert (first_rejected ps (seq np n) = None) as ->.
  { apply first_rejected_none. intros m [? ?]%elem_of_seq e.
    specialize (H (m - np)). replace (np + (m - np)) with m in H by lia.
    rewrite H; [lia|done]. }
  replace (seq np n) with ((λ j, np + j) <$> seq 0 n)
    by (rewrite fmap_add_seq; f_equal; lia).
  assert (fulfilled_values ps ((λ j, np + j) <$> seq 0 n) = values_of [] (seq 0 n))
    as ->; [|done].
  apply fulfilled_values_status. intros j [_ ?]%elem_of_seq. apply H. lia.
Qed.

(** One more settlement: the client invokes the callback of the [i]-th
    request of the batch, and the callback settles its promise with [s]. *)
Lemma batch_inv_step n0 np g (reqs : list (rcall * K)) D rt i c s :
  batch_inv n0 np g reqs D rt →
  reqs !! i = Some c → i ∉ D.*1 → s ≠ Pending →
  ∃ rt', take_callback (n0 + i) rt = Some (c.2, rt') ∧
    batch_inv n0 np g reqs (D ++ [(i, s)]) (settle (np + i) s rt').
Proof.
  intros (Hp & Hg & Hr) Hc Hi Hs.
  pose proof (lookup_lt_Some _ _ _ Hc) as Hlt.
  unfold take_callback. rewrite (Hr _ _ Hc) /=.
  rewrite bool_decide_eq_false_2 //. eexists; split; [done|].
  unfold settle; simpl. rewrite Hp // status_fresh //.
  pose proof (Hp i Hlt) as Hpi. apply lookup_lt_Some in Hpi.
  split_and!; simpl.
  - intros j Hj. rewrite status_snoc //. case_decide as Hji.
    + subst. by rewrite list_lookup_insert_eq.
    + rewrite list_lookup_insert_ne; [lia|auto].
  - rewrite list_lookup_fmap Hg /=. f_equal.
    unfold group_step, agg; simpl. rewrite first_error_snoc.
    destruct (first_error D) as [e|]; [done|].
    rewrite (values_of_pending D _ i); [apply elem_of_seq; lia|by apply status_fresh|].
    rewrite bool_decide_eq_true_2; [apply elem_of_seq; lia|].
    rewrite list_lookup_insert_eq //.
    destruct s as [|v|e]; [done| |done].
    replace (seq np (length reqs)) with ((λ j, np + j) <$> seq 0 (length reqs))
      by (rewrite fmap_add_seq; f_equal; lia).
    rewrite (fulfilled_values_status _ np (D ++ [(i, Fulfilled v)])).
    + intros j [_ Hj]%elem_of_seq. rewrite status_snoc //. case_decide.
      * subst. by rewrite list_lookup_insert_eq.
      * rewrite list_lookup_insert_ne; [lia|]. apply Hp. lia.
    + by destruct (values_of (D ++ [(i, Fulfilled v)]) (seq 0 (length reqs))).
  - intros j c' Hc'. rewrite fmap_app /=.
    destruct (decide (j = i)) as [->|Hji].
    + simplify_eq. rewrite list_lookup_insert_eq.
      * eapply lookup_lt_Some, Hr, Hc.
      * by rewrite bool_decide_eq_true_2; [set_solver|].
    + rewrite list_lookup_insert_ne; [lia|]. rewrite (Hr _ _ Hc').
      do 2 f_equal. apply bool_decide_ext.
      rewrite elem_of_app list_elem_of_singleton. intuition congruence.
Qed.


(** A request that was just issued, with its fresh promise, is answered. *)
Lemma take_callback_fresh (c : rcall) (cb : K) rt :
  take_callback (length (requests rt)) (kv_request c cb (new_promise rt).2) =
    Some (cb, Runtime (requests rt ++ [Request c cb true])
                (promises rt ++ [Pending]) (groups rt)).
Proof.
  unfold take_callback, kv_request, new_promise. simpl.
  rewrite lookup_app_r // Nat.sub_diag /=. do 3 f_equal.
  rewrite insert_app_r_alt // Nat.sub_diag //.
Qed.

Lemma settle_fresh (reqs : list (request K)) ps gs s :
  promises (settle (length ps) s (Runtime reqs (ps ++ [Pending]) gs)) !! length ps
    = Some s ∧
  requests (settle (length ps) s (Runtime reqs (ps ++ [Pending]) gs)) = reqs.
Proof.
  unfold settle. simpl. rewrite lookup_app_r // Nat.sub_diag /=.
  rewrite insert_app_r_alt // Nat.sub_diag /=. split; [|done].
  rewrite lookup_app_r // Nat.sub_diag //.
Qed.

End RuntimeFacts.

(** * Histories *)

Lemma status_elem D i s : NoDup D.*1 → (i, s) ∈ D → status D i = s.
Proof.
  induction D as [|[j t] D IH]; simpl; [by intros _ ?%elem_of_nil|].
  intros [Hj HD]%NoDup_cons [Heq|Hin]%elem_of_cons.
  - simplify_eq. by case_decide.
  - case_decide; [|auto]. subst. destruct Hj.
    apply list_elem_of_fmap. by exists (i, s).
Qed.



Lemma values_of_fulfilled D js :
  (∀ j, j ∈ js → ∃ v, status D j = Fulfilled v) → is_Some (values_of D js).
Proof.
  induction js as [|j js IH]; [by eexists|]. intros H. simpl.
  destruct (H j) as [v ->]; [apply elem_of_cons; by left|].
  destruct IH as [vals ->]; [|by eexists].
  intros k Hk. apply H, elem_of_cons. by right.
Qed.

Lemma agg_fulfilled n D :
  first_error D = None → (∀ i, i < n → ∃ v, status D i = Fulfilled v) →
  ∃ vals, agg n D = AllFulfilled vals.
Proof.
  unfold agg. intros -> H.
  destruct (values_of_fulfilled D (seq 0 n)) as [vals ->]; [|by eexists].
  intros j [_ ?]%elem_of_seq. apply H. lia.
Qed.


Lemma first_error_hist_ok n0 ds :
  Forall (λ d, truthy d.1.2 = false) ds → first_error (hist n0 ds) = None.
Proof.
  induction 1 as [|[[id err] res] ds Hd _ IH]; [done|].
  simpl in *. unfold settled_by. by rewrite Hd.
Qed.


Lemma hist_ids n0 ds : (hist n0 ds).*1 = (λ id, id - n0) <$> ds.*1.*1.
Proof. unfold hist. rewrite -!list_fmap_compose. by apply list_fmap_ext. Qed.

Lemma hist_NoDup n0 ds :
  Forall (λ d, n0 ≤ d.1.1) ds → NoDup ds.*1.*1 → NoDup (hist n0 ds).*1.
Proof.
  intros Hge Hnd. rewrite hist_ids. apply NoDup_fmap_2_strong; [|done].
  intros x y [d [-> Hd]]%list_elem_of_fmap [d' [-> Hd']]%list_elem_of_fmap.
  apply list_elem_of_fmap in Hd as [e [-> He]].
  apply list_elem_of_fmap in Hd' as [e' [-> He']].
  rewrite Forall_forall in Hge. pose proof (Hge _ He). pose proof (Hge _ He'). lia.
Qed.

Lemma status_hist n0 ds id err res :
  Forall (λ d, n0 ≤ d.1.1) ds → NoDup ds.*1.*1 → (id, err, res) ∈ ds →
  status (hist n0 ds) (id - n0) = settled_by err (res_and_Value res).
Proof.
  intros Hge Hnd Hin. apply status_elem; [by apply hist_NoDup|].
  apply list_elem_of_fmap. by exists (id, err, res).
Qed.

Lemma status_hist_fresh n0 ds id :
  Forall (λ d, n0 ≤ d.1.1) ds → n0 ≤ id → id ∉ ds.*1.*1 →
  status (hist n0 ds) (id - n0) = Pending.
Proof.
  intros Hge Hid Hnin. apply status_fresh. rewrite hist_ids.
  intros [id' [Heq Hin]]%list_elem_of_fmap.
  assert (n0 ≤ id').
  { apply list_elem_of_fmap in Hin as [d [-> Hd]].
    apply list_elem_of_fmap in Hd as [e [-> He]].
    rewrite Forall_forall in Hge. exact (Hge _ He). }
  assert (id = id') as -> by lia. done.
Qed.

(** * The mapped variant *)

Section MappedFacts.
Import Mapped.

Lemma mapped_get_all_spec vars keys w :
  ∃ w', get_all vars keys w = (seq (length (promises (rt w))) (length keys), w') ∧
    _vars w' = _vars w ∧ handles w' = handles w ∧
    groups (rt w') = groups (rt w) ∧
    promises (rt w') = promises (rt w) ++ replicate (length keys) Pending ∧
    requests (rt w') = requests (rt w) ++
      ((λ c, Request c.1 c.2 false) <$>
         batch_reqs vars (length (promises (rt w))) keys).
Proof.
  revert w. induction keys as [|key keys IH]; intros w; simpl.
  - eexists; split_and!; try done; by rewrite app_nil_r.
  - destruct (IH (World (_vars w)
      (kv_request (KvGet (obj_get vars key))
         (GetCb key (length (promises (rt w))))
         (Runtime (requests (rt w)) (promises (rt w) ++ [Pending]) (groups (rt w))))
      (handles w) (inherited w))) as (w' & Hget & Hv & Hh & Hg & Hp & Hr).
    simpl in *. rewrite length_app /= Nat.add_1_r in Hget Hr.
    rewrite Hget. eexists; split_and!; try done.
    + by rewrite Hp -assoc.
    + rewrite Hr -assoc /= Nat.add_0_r. do 3 f_equal.
      unfold batch_reqs. apply imap_ext. intros i x _. simpl.
      by rewrite Nat.add_succ_r.
Qed.



Lemma mapped_invoke_spec h w :
  ∃ w', invoke h w = (length (groups (rt w)), w') ∧
    _vars w' = _vars w ∧ handles w' = handles w ∧
    calls (rt w') = calls (rt w) ++ reads h ∧
    (∀ id, id < length (requests (rt w)) →
       requests (rt w') !! id = requests (rt w) !! id) ∧
    batch_inv (length (requests (rt w))) (length (promises (rt w)))
      (length (groups (rt w)))
      (batch_reqs (h_vars h) (length (promises (rt w))) (h_keys h)) [] (rt w').
Proof.
  unfold invoke.
  destruct (mapped_get_all_spec (h_vars h) (h_keys h) w)
    as (w1 & -> & Hv & Hh & Hg & Hp & Hr).
  simpl. rewrite Hg. eexists; split_and!; try done; simpl.
  - unfold calls; simpl. rewrite Hr fmap_app. f_equal.
    unfold batch_reqs. rewrite -list_fmap_compose fmap_imap /=.
    apply list_eq; intros i. rewrite list_lookup_imap list_lookup_fmap.
    by destruct (h_keys h !! i).
  - intros id Hid. by rewrite Hr lookup_app_l.
  - unfold batch_inv, batch_reqs. rewrite length_imap. simpl. split_and!.
    + intros i Hi. rewrite Hp lookup_app_r; [lia|].
      rewrite lookup_replicate_2; [lia|done].
    + rewrite lookup_app_r; [lia|]. rewrite Nat.sub_diag /=. do 2 f_equal.
      apply all_init_pending. intros i Hi.
      rewrite Hp lookup_app_r; [lia|]. rewrite lookup_replicate_2; [lia|done].
    + intros i c Hc. rewrite Hr lookup_app_r; [lia|].
      replace (length (requests (rt w)) + i - length (requests (rt w))) with i by lia.
      rewrite list_lookup_fmap Hc /=. do 2 f_equal.
Qed.

Lemma mapped_batch_reqs_lookup vars np keys i key :
  keys !! i = Some key →
  batch_reqs vars np keys !! i = Some (KvGet (obj_get vars key), GetCb key (np + i)).
Proof. intros H. unfold batch_reqs. by rewrite list_lookup_imap H. Qed.

(** The client answers the [i]-th read of a batch. *)
Lemma mapped_deliver_step vars keys n0 np g vs0 D w i key err res :
  NoDup keys →
  batch_inv n0 np g (batch_reqs vars np keys) D (rt w) →
  cache_inv keys vs0 D (_vars w) →
  keys !! i = Some key → i ∉ D.*1 →
  ∃ w', deliver (n0 + i) err res w = Some (Returned w') ∧
    batch_inv n0 np g (batch_reqs vars np keys)
      (D ++ [(i, settled_by err (res_and_Value res))]) (rt w') ∧
    cache_inv keys vs0 (D ++ [(i, settled_by err (res_and_Value res))]) (_vars w') ∧
    calls (rt w') = calls (rt w) ∧ handles w' = handles w.
Proof.
  intros Hnd Hb [Hc Hf] Hk Hi.
  pose proof (mapped_batch_reqs_lookup vars np _ _ _ Hk) as Hreq.
  destruct (batch_inv_step _ _ _ _ _ _ _ _ (settled_by err (res_and_Value res))
              Hb Hreq Hi) as (rt' & Htake & Hb').
  { unfold settled_by. by destruct (truthy err). }
  simpl in Htake, Hb'. unfold deliver. rewrite Htake /=.
  destruct (Hc _ _ Hk) as (e0 & He0 & Hcur).
  rewrite status_fresh // in Hcur.
  pose proof (calls_take_callback _ _ _ _ Htake) as Hcalls.
  unfold settled_by in *. destruct (truthy err) eqn:Herr.
  - eexists; split_and!; [done|exact Hb'| |by rewrite /calls /= calls_settle|done].
    split; [|done]. intros j key' Hk'. simpl.
    destruct (Hc _ _ Hk') as (e1 & He1 & Hcur1).
    exists e1. split; [done|]. rewrite status_snoc //.
    case_decide; [|done]. simplify_eq. by rewrite Hcur.
  - rewrite Hcur. eexists; split_and!;
      [done|exact Hb'| |by rewrite /calls /= calls_settle|done].
    split; simpl.
    + intros j key' Hk'. destruct (Hc _ _ Hk') as (e1 & He1 & Hcur1).
      exists e1. split; [done|]. rewrite status_snoc //.
      case_decide as Hji.
      * simplify_eq. by apply lookup_insert_eq.
      * rewrite lookup_insert_ne; [|done].
        intros ->. apply Hji. exact (NoDup_lookup _ _ _ _ Hnd Hk' Hk).
    + intros name Hname. rewrite lookup_insert_ne; [|auto].
      intros ->. apply Hname. exact (list_elem_of_lookup_2 _ _ _ Hk).
Qed.

(** A run of answers to distinct reads of a batch that are still waiting. *)
Lemma mapped_replies_inv vars keys n0 np g vs0 ds : ∀ D w,
  NoDup keys →
  batch_inv n0 np g (batch_reqs vars np keys) D (rt w) →
  cache_inv keys vs0 D (_vars w) →
  Forall (λ d, n0 ≤ d.1.1 < n0 + length keys) ds →
  NoDup (D.*1 ++ (hist n0 ds).*1) →
  ∃ w', replies ds w = Some w' ∧
    batch_inv n0 np g (batch_reqs vars np keys) (D ++ hist n0 ds) (rt w') ∧
    cache_inv keys vs0 (D ++ hist n0 ds) (_vars w') ∧
    calls (rt w') = calls (rt w) ∧ handles w' = handles w.
Proof.
  induction ds as [|[[id err] res] ds IH]; intros D w Hnd Hb Hc Hr HD; simpl.
  - rewrite app_nil_r. by eexists.
  - apply Forall_cons in Hr as [Hid Hr]. simpl in Hid, HD.
    destruct (lookup_lt_is_Some_2 keys (id - n0)) as [key Hk]; [lia|].
    assert (id - n0 ∉ D.*1) as Hi.
    { apply NoDup_app in HD as (_ & HD & _). intros Hin.
      apply (HD _ Hin), elem_of_cons. by left. }
    destruct (mapped_deliver_step _ _ _ _ _ _ _ _ _ _ err res Hnd Hb Hc Hk Hi)
      as (w1 & Hdel & Hb1 & Hc1 & Hcalls1 & Hh1).
    replace (n0 + (id - n0)) with id in Hdel by lia. rewrite Hdel.
    destruct (IH _ w1 Hnd Hb1 Hc1 Hr) as (w' & Hrep & Hb' & Hc' & Hcalls' & Hh').
    { by rewrite fmap_app /= -assoc. }
    rewrite -assoc /= in Hb', Hc'.
    exists w'. split_and!; try done; congruence.
Qed.

(** ** Registration and what programs can reach *)

Lemma mapped_obj_get_elem (vars : jsobj) name key :
  NoDup (Object_keys vars) → (name, key) ∈ vars → obj_get vars name = key.
Proof.
  induction vars as [|[k v] vars IH]; simpl; [by intros _ ?%elem_of_nil|].
  intros [Hk Hnd]%NoDup_cons [Heq|Hin]%elem_of_cons.
  - simplify_eq. by case_decide.
  - case_decide; [|auto]. subst. destruct Hk.
    apply list_elem_of_fmap. by exists (name, key).
Qed.

Lemma mapped_register_lookup vars keys vs key :
  foldl (register vars) vs keys !! key =
    if decide (key ∈ keys) then Some (Entry (obj_get vars key) None) else vs !! key.
Proof.
  revert vs. induction keys as [|k keys IH]; intros vs; simpl.
  - done.
  - rewrite IH. unfold register.
    destruct (decide (key ∈ keys)) as [Hin|Hnin].
    + rewrite decide_True //. apply elem_of_cons. by right.
    + destruct (decide (key = k)) as [->|Hne].
      * rewrite decide_True; [apply elem_of_cons; by left|].
        by apply lookup_insert_eq.
      * rewrite decide_False; [rewrite elem_of_cons; intuition|].
        by rewrite lookup_insert_ne.
Qed.

Lemma mapped_grows_refl w : grows w w.
Proof. done. Qed.

Lemma mapped_grows_trans w1 w2 w3 : grows w1 w2 → grows w2 w3 → grows w1 w3.
Proof.
  intros (? & ? & ?) (? & ? & ?). split_and!; [auto|by etrans|by etrans].
Qed.

Lemma settle_groups_length {K} p s (r : runtime K) :
  length (groups (settle p s r)) = length (groups r).
Proof. unfold settle. repeat case_match; simpl; by rewrite ?length_fmap. Qed.

Lemma mapped_deliver_grows id err res w o :
  deliver id err res w = Some o →
  grows w (match o with Returned w' | Threw w' => w' end).
Proof.
  unfold deliver. destruct (take_callback id (rt w)) as [[cb r]|] eqn:Ht; [|done].
  intros [= <-]. destruct (take_callback_promises _ _ _ _ Ht) as [_ Hg].
  unfold run_callback.
  destruct cb as [name p|name pth val p]; simpl;
    destruct (truthy err); try destruct (_vars w !! name) eqn:Hn;
    try case_decide; simpl;
    (split_and!; simpl; [|done|by rewrite ?settle_groups_length Hg]);
    intros key Hkey; try done;
    (destruct (decide (key = name)) as [->|];
      [by rewrite lookup_insert_eq|by rewrite lookup_insert_ne]).
Qed.

Lemma mapped_exec_grows w o : grows w (exec w o).
Proof.
  destruct o as [vars|hid|name|name pth|name pth val|id err res]; simpl.
  - split_and!; simpl; [|by apply prefix_app_r|done].
    intros key Hkey. rewrite mapped_register_lookup. by case_decide.
  - unfold run_task. destruct (handles w !! hid) as [h|]; simpl; [|done].
    destruct (mapped_invoke_spec h w) as (w' & -> & Hv & Hh & _ & _ & _ & Hg & _).
    split_and!; simpl; [by rewrite Hv|by rewrite Hh|].
    apply lookup_lt_Some in Hg. lia.
  - done.
  - done.
  - unfold set. by destruct (set_args name pth val).
  - destruct (deliver id err res w) as [o|] eqn:Hd; [|done].
    apply mapped_deliver_grows in Hd. by destruct o.
Qed.

Lemma mapped_run_grows ops w : grows w (run ops w).
Proof.
  revert w. induction ops as [|o ops IH]; intros w; [done|]. simpl.
  eapply mapped_grows_trans; [apply mapped_exec_grows|apply IH].
Qed.

Lemma mapped_exec_registered w o : registered w → registered (exec w o).
Proof.
  intros Hreg hid h Hh.
  destruct (mapped_exec_grows w o) as (Hdom & _ & _).
  assert (handles w !! hid = Some h ∨
          ∃ vars, o = OTask vars ∧ h = Handle (Object_keys vars) vars) as [Hold|Hnew].
  { destruct o as [vars|hid'|name|name pth|name pth val|id err res];
      simpl in Hh; try by left.
    - apply lookup_app_Some in Hh as [?|[_ Hh]]; [by left|right].
      apply list_lookup_singleton_Some in Hh as [_ <-]. by eexists.
    - left. unfold run_task in Hh. destruct (handles w !! hid') as [h'|]; [|done].
      simpl in Hh.
      destruct (mapped_invoke_spec h' w) as (w' & Hi & _ & Hhs & _).
      rewrite Hi /= Hhs in Hh. done.
    - left. unfold set in Hh. by destruct (set_args name pth val).
    - left. destruct (deliver id err res w) as [o|] eqn:Hd; [|done].
      unfold deliver in Hd.
      destruct (take_callback id (rt w)) as [[cb r]|]; [|done].
      simplify_eq. unfold run_callback in Hh.
      destruct cb as [name p|name pth val p]; simpl in Hh;
        destruct (truthy err); try destruct (_vars w !! name);
        try case_decide; exact Hh. }
  - destruct (Hreg _ _ Hold) as [? Hkeys]. split; [done|]. auto.
  - destruct Hnew as (vars & -> & ->). split; [done|]. simpl.
    intros key Hkey. rewrite mapped_register_lookup decide_True //.
Qed.

Lemma mapped_run_registered ops w : registered w → registered (run ops w).
Proof.
  revert w. induction ops as [|o ops IH]; intros w Hw; [done|].
  simpl. by apply IH, mapped_exec_registered.
Qed.

Lemma mapped_reachable_registered ops : registered (run ops new_Resolver).
Proof. apply mapped_run_registered. intros hid h Hh. by rewrite lookup_nil in Hh. Qed.

(** ** Bulk resolution *)


Lemma mapped_cb_calls_agg n0 np g reqs D w :
  batch_inv n0 np g reqs D (rt w) →
  cb_calls g w = match agg (length reqs) D with
                 | AllPending => []
                 | AllFulfilled _ => [JUndefined]
                 | AllRejected e => [e]
                 end.
Proof. intros (_ & Hg & _). unfold cb_calls. by rewrite Hg. Qed.

Lemma mapped_batch_reqs_length vars np keys :
  length (batch_reqs vars np keys) = length keys.
Proof. apply length_imap. Qed.

(** Invoking a handle and then answering some of its reads, each once, in
    any order. *)
Lemma mapped_batch w hid h ds :
  registered w → handles w !! hid = Some h → NoDup (h_keys h) →
  NoDup ds.*1.*1 →
  Forall (λ d, length (requests (rt w)) ≤ d.1.1
               < length (requests (rt w)) + length (h_keys h)) ds →
  ∃ w1 w2,
    run_task hid w = Some (length (groups (rt w)), w1) ∧
    replies ds w1 = Some w2 ∧
    _vars w1 = _vars w ∧
    calls (rt w1) = calls (rt w) ++ reads h ∧
    calls (rt w2) = calls (rt w1) ∧
    batch_inv (length (requests (rt w))) (length (promises (rt w)))
      (length (groups (rt w)))
      (batch_reqs (h_vars h) (length (promises (rt w))) (h_keys h))
      (hist (length (requests (rt w))) ds) (rt w2) ∧
    cache_inv (h_keys h) (_vars w) (hist (length (requests (rt w))) ds) (_vars w2).
Proof.
  intros Hreg Hh Hnd Hids Hrange.
  destruct (mapped_invoke_spec h w) as (w1 & Hinv & Hv & Hhs & Hcalls & _ & Hb).
  assert (cache_inv (h_keys h) (_vars w) [] (_vars w1)) as Hc.
  { rewrite Hv. split; [|done]. intros i key Hk.
    destruct (Hreg _ _ Hh) as [_ Hkeys].
    destruct (Hkeys key) as [e0 He0]; [by eapply list_elem_of_lookup_2|].
    by exists e0. }
  destruct (mapped_replies_inv (h_vars h) (h_keys h) (length (requests (rt w)))
              (length (promises (rt w))) (length (groups (rt w))) (_vars w) ds [] w1)
    as (w2 & Hrep & Hb2 & Hc2 & Hcalls2 & _); try done.
  { simpl. apply hist_NoDup; [|done].
    eapply Forall_impl; [exact Hrange|]. simpl. lia. }
  exists w1, w2. unfold run_task. rewrite Hh /= Hinv. done.
Qed.

Lemma hist_status_answered n0 n (ds : list (nat * jsval * getres)) i :
  ds.*1.*1 ≡ₚ seq n0 n → Forall (λ d, truthy d.1.2 = false) ds → i < n →
  ∃ v, status (hist n0 ds) i = Fulfilled v.
Proof.
  intros Hperm Hok Hi.
  assert (n0 + i ∈ ds.*1.*1) as Hin.
  { rewrite Hperm. apply elem_of_seq. lia. }
  apply list_elem_of_fmap in Hin as [x [Hx Hin]].
  apply list_elem_of_fmap in Hin as [[[id err] res] [-> Hin]].
  simpl in Hx. subst id.
  pose proof (status_hist n0 ds (n0 + i) err res) as Hs.
  replace (n0 + i - n0) with i in Hs by lia.
  rewrite Hs.
  - apply Forall_forall. intros d Hd.
    assert (d.1.1 ∈ seq n0 n) as [? _]%elem_of_seq; [|done].
    rewrite -Hperm. by do 2 apply list_elem_of_fmap_2.
  - rewrite Hperm. apply NoDup_seq.
  - done.
  - rewrite Forall_forall in Hok. specialize (Hok _ Hin). simpl in Hok.
    unfold settled_by. rewrite Hok. by eexists.
Qed.

(** C1: after a program has run, take any handle [task] returned and invoke
    it; let the client answer each of its reads once, in any order and
    without error.  Then the completion handler is called once, without an
    error, and for the [i]-th registered pair [(name, key)] the [i]-th
    request of the invocation is the read of [key] and [var(name)] returns
    the value [res && res.Value] of the answer to it. *)
Theorem mapped_bulk_resolution_caches_values (ops : list op) (hid : nat)
    (h : handle) (ds : list (nat * jsval * getres)) :
  let w := run ops new_Resolver in
  let n0 := length (requests (rt w)) in
  handles w !! hid = Some h →
  NoDup (h_keys h) →
  ds.*1.*1 ≡ₚ seq n0 (length (h_keys h)) →
  Forall (λ d, truthy d.1.2 = false) ds →
  ∃ g w1 w2,
    run_task hid w = Some (g, w1) ∧
    replies ds w1 = Some w2 ∧
    cb_calls g w2 = [JUndefined] ∧
    ∀ i name key err res,
      h_vars h !! i = Some (name, key) → (n0 + i, err, res) ∈ ds →
      calls (rt w1) !! (n0 + i) = Some (KvGet key) ∧
      var name w2 = (res_and_Value res, w2).
Proof.
  intros w n0 Hh Hnd Hperm Hok.
  pose proof (mapped_reachable_registered ops) as Hreg. fold w in Hreg.
  destruct (Hreg _ _ Hh) as [Hkeys _].
  assert (NoDup ds.*1.*1) as Hids by (rewrite Hperm; apply NoDup_seq).
  assert (Forall (λ d, n0 ≤ d.1.1 < n0 + length (h_keys h)) ds) as Hrange.
  { apply Forall_forall. intros d Hd.
    assert (d.1.1 ∈ seq n0 (length (h_keys h))) as ?%elem_of_seq; [|done].
    rewrite -Hperm. by do 2 apply list_elem_of_fmap_2. }
  destruct (mapped_batch w hid h ds Hreg Hh Hnd Hids Hrange)
    as (w1 & w2 & Hrun & Hrep & Hv & Hcalls & Hcalls2 & Hb & Hc).
  fold n0 in Hb, Hc.
  exists (length (groups (rt w))), w1, w2. split_and!; [done|done| |].
  - rewrite (mapped_cb_calls_agg _ _ _ _ _ _ Hb) mapped_batch_reqs_length.
    destruct (agg_fulfilled (length (h_keys h)) (hist n0 ds)) as [vals ->];
      [by apply first_error_hist_ok| |done].
    intros i Hi. by eapply hist_status_answered.
  - intros i name key err res Hpair Hin.
    assert (h_keys h !! i = Some name) as Hk.
    { by rewrite Hkeys /Object_keys list_lookup_fmap Hpair. }
    split.
    + rewrite Hcalls lookup_app_r /calls length_fmap; [lia|].
      replace (n0 + i - length (requests (rt w))) with i by (unfold n0; lia).
      rewrite /reads list_lookup_fmap Hk /=. do 2 f_equal.
      apply mapped_obj_get_elem; [by rewrite -Hkeys|].
      by eapply list_elem_of_lookup_2.
    + destruct Hc as [Hc _]. destruct (Hc _ _ Hk) as (e0 & _ & Hcur).
      pose proof (status_hist n0 ds (n0 + i) err res) as Hs.
      replace (n0 + i - n0) with i in Hs by lia.
      rewrite Hs in Hcur; [|done|done|].
      { eapply Forall_impl; [exact Hrange|]. simpl. lia. }
      rewrite Forall_forall in Hok. specialize (Hok _ Hin). simpl in Hok.
      unfold settled_by in Hcur. rewrite Hok in Hcur.
      unfold var. by rewrite Hcur.
Qed.


Lemma hist_app n0 ds1 ds2 : hist n0 (ds1 ++ ds2) = hist n0 ds1 ++ hist n0 ds2.
Proof. apply fmap_app. Qed.


(** ** Names no operation mentions *)




(** ** Invoking a handle again *)

Lemma mapped_run_task_again (w : world) (hid : nat) (h : handle) (mid : list op) :
  handles w !! hid = Some h →
  ∃ g1 w1 g2 w2,
    run_task hid w = Some (g1, w1) ∧
    run_task hid (run mid w1) = Some (g2, w2) ∧
    g1 ≠ g2 ∧
    calls (rt w1) = calls (rt w) ++ reads h ∧
    calls (rt w2) = calls (rt (run mid w1)) ++ reads h ∧
    (∀ i, i < length (h_keys h) →
       req_done <$> requests (rt w2) !! (length (requests (rt (run mid w1))) + i)
         = Some false).
Proof.
  intros Hh.
  destruct (mapped_invoke_spec h w)
    as (w1 & Hi1 & _ & Hhs & Hcalls & _ & (_ & Hg & _)).
  destruct (mapped_run_grows mid w1) as (_ & Hpre & Hlen).
  assert (handles (run mid w1) !! hid = Some h) as Hh2.
  { eapply prefix_lookup_Some; [|done]. by rewrite Hhs. }
  destruct (mapped_invoke_spec h (run mid w1))
    as (w2 & Hi2 & _ & _ & Hcalls2 & _ & (_ & _ & Hreqs)).
  exists (length (groups (rt w))), w1, (length (groups (rt (run mid w1)))), w2.
  unfold run_task. rewrite Hh Hh2 /= Hi1 Hi2. split_and!; try done.
  - apply lookup_lt_Some in Hg. lia.
  - intros i Hi.
    destruct (lookup_lt_is_Some_2 (h_keys h) i Hi) as [key Hk].
    by rewrite (Hreqs _ _ (mapped_batch_reqs_lookup _ _ _ _ _ Hk)).
Qed.

End MappedFacts.

(** * The list variant *)

Section SimpleFacts.
Import Simple.

Lemma simple_get_all_spec keys w :
  ∃ w', get_all keys w = (seq (length (promises (rt w))) (length keys), w') ∧
    _vars w' = _vars w ∧ handles w' = handles w ∧
    groups (rt w') = groups (rt w) ∧
    promises (rt w') = promises (rt w) ++ replicate (length keys) Pending ∧
    requests (rt w') = requests (rt w) ++
      ((λ c, Request c.1 c.2 false) <$> batch_reqs (length (promises (rt w))) keys).
Proof.
  revert w. induction keys as [|key keys IH]; intros w; simpl.
  - eexists; split_and!; try done; by rewrite app_nil_r.
  - destruct (IH (World (_vars w)
      (kv_request (KvGet (JStr key)) (GetCb key (length (promises (rt w))))
         (Runtime (requests (rt w)) (promises (rt w) ++ [Pending]) (groups (rt w))))
      (handles w))) as (w' & Hget & Hv & Hh & Hg & Hp & Hr).
    simpl in *. rewrite length_app /= Nat.add_1_r in Hget Hr.
    rewrite Hget. eexists; split_and!; try done.
    + by rewrite Hp -assoc.
    + rewrite Hr -assoc /= Nat.add_0_r. do 3 f_equal.
      unfold batch_reqs. apply imap_ext. intros i x _. simpl.
      by rewrite Nat.add_succ_r.
Qed.

Lemma simple_batch_reqs_lookup np keys i key :
  keys !! i = Some key →
  batch_reqs np keys !! i = Some (KvGet (JStr key), GetCb key (np + i)).
Proof. intros H. unfold batch_reqs. by rewrite list_lookup_imap H. Qed.

Lemma simple_batch_reqs_length np keys : length (batch_reqs np keys) = length keys.
Proof. apply length_imap. Qed.

Lemma simple_invoke_spec keys w :
  ∃ w', invoke keys w = (length (groups (rt w)), w') ∧
    _vars w' = _vars w ∧ handles w' = handles w ∧
    calls (rt w') = calls (rt w) ++ reads keys ∧
    batch_inv (length (requests (rt w))) (length (promises (rt w)))
      (length (groups (rt w)))
      (batch_reqs (length (promises (rt w))) keys) [] (rt w').
Proof.
  unfold invoke.
  destruct (simple_get_all_spec keys w) as (w1 & -> & Hv & Hh & Hg & Hp & Hr).
  simpl. rewrite Hg. eexists; split_and!; try done; simpl.
  - unfold calls; simpl. rewrite Hr fmap_app. f_equal.
    unfold batch_reqs, reads. rewrite -list_fmap_compose fmap_imap /=.
    apply list_eq; intros i. rewrite list_lookup_imap list_lookup_fmap.
    by destruct (keys !! i).
  - unfold batch_inv. rewrite simple_batch_reqs_length. simpl. split_and!.
    + intros i Hi. rewrite Hp lookup_app_r; [lia|].
      rewrite lookup_replicate_2; [lia|done].
    + rewrite lookup_app_r; [lia|]. rewrite Nat.sub_diag /=. do 2 f_equal.
      apply all_init_pending. intros i Hi.
      rewrite Hp lookup_app_r; [lia|]. rewrite lookup_replicate_2; [lia|done].
    + intros i c Hc. rewrite Hr lookup_app_r; [lia|].
      replace (length (requests (rt w)) + i - length (requests (rt w))) with i by lia.
      rewrite list_lookup_fmap Hc /=. do 2 f_equal.
Qed.








(** ** Names no operation mentions, and invoking a handle again *)

Lemma simple_grows_trans w1 w2 w3 : grows w1 w2 → grows w2 w3 → grows w1 w3.
Proof. intros (? & ?) (? & ?). split; by etrans. Qed.

Lemma simple_exec_grows w o : grows w (exec w o).
Proof.
  destruct o as [keys|hid|name|name|name val|id err res]; simpl.
  - split; simpl; [by apply prefix_app_r|done].
  - unfold run_task. destruct (handles w !! hid) as [keys|]; simpl; [|done].
    destruct (simple_invoke_spec keys w) as (w' & -> & Hv & Hh & _ & (_ & Hg & _)).
    split; simpl; [by rewrite Hh|]. apply lookup_lt_Some in Hg. lia.
  - done.
  - done.
  - done.
  - unfold deliver.
    destruct (take_callback id (rt w)) as [[cb r]|] eqn:Ht; [|done].
    destruct (take_callback_promises _ _ _ _ Ht) as [_ Hg].
    unfold run_callback. simpl.
    destruct cb as [name p|name val p]; destruct (truthy err);
      (split; simpl; [done|by rewrite settle_groups_length Hg]).
Qed.

Lemma simple_run_grows ops w : grows w (run ops w).
Proof.
  revert w. induction ops as [|o ops IH]; intros w; [done|]. simpl.
  eapply simple_grows_trans; [apply simple_exec_grows|apply IH].
Qed.




Lemma simple_run_task_again (w : world) (hid : nat) (keys : list string)
    (mid : list op) :
  handles w !! hid = Some keys →
  ∃ g1 w1 g2 w2,
    run_task hid w = Some (g1, w1) ∧
    run_task hid (run mid w1) = Some (g2, w2) ∧
    g1 ≠ g2 ∧
    calls (rt w1) = calls (rt w) ++ reads keys ∧
    calls (rt w2) = calls (rt (run mid w1)) ++ reads keys ∧
    (∀ i, i < length keys →
       req_done <$> requests (rt w2) !! (length (requests (rt (run mid w1))) + i)
         = Some false).
Proof.
  intros Hh.
  destruct (simple_invoke_spec keys w) as (w1 & Hi1 & _ & Hhs & Hcalls & (_ & Hg & _)).
  destruct (simple_run_grows mid w1) as (Hpre & Hlen).
  assert (handles (run mid w1) !! hid = Some keys) as Hh2.
  { eapply prefix_lookup_Some; [|done]. by rewrite Hhs. }
  destruct (simple_invoke_spec keys (run mid w1))
    as (w2 & Hi2 & _ & _ & Hcalls2 & (_ & _ & Hreqs)).
  exists (length (groups (rt w))), w1, (length (groups (rt (run mid w1)))), w2.
  unfold run_task. rewrite Hh Hh2 /= Hi1 Hi2. split_and!; try done.
  - apply lookup_lt_Some in Hg. lia.
  - intros i Hi.
    destruct (lookup_lt_is_Some_2 keys i Hi) as [key Hk].
    by rewrite (Hreqs _ _ (simple_batch_reqs_lookup _ _ _ _ Hk)).
Qed.

End SimpleFacts.

(** * Single operations *)

Section Answered.
Context {K : Type}.

(** A request is issued with a fresh promise, the client answers it, and
    the callback settles the promise with [s]. *)
Lemma fresh_request_answered (c : rcall) (cb : K) (s : pstate) (r : runtime K) :
  let r1 := kv_request c cb (new_promise r).2 in
  let p := (new_promise r).1 in
  calls r1 = calls r ++ [c] ∧
  promises r1 !! p = Some Pending ∧
  ∃ r1', take_callback (length (requests r)) r1 = Some (cb, r1') ∧
    promises (settle p s r1') !! p = Some s ∧
    calls (settle p s r1') = calls r1.
Proof.
  simpl. split_and!.
  - by rewrite /calls /= fmap_app.
  - rewrite lookup_app_r // Nat.sub_diag //.
  - eexists. split; [apply take_callback_fresh|].
    destruct (settle_fresh (requests r ++ [Request c cb true]) (promises r)
                (groups r) s) as [Hp Hr].
    split; [done|]. by rewrite /calls Hr /= !fmap_app.
Qed.

End Answered.


(** C4: when the client answers a fetch ([_get] in the mapped variant, [get]
    in the list variant) or a write ([set]) with an error, the callback
    rejects the promise with that very error and the cache is left exactly as
    it was before the operation. *)
Theorem failed_get_or_set_leaves_cache :
  (∀ (w : Mapped.world) (name : string) (path err : jsval) (res : getres),
     truthy err = true →
     ∃ p w1 w2,
       Mapped._get name path w = (p, w1) ∧
       Mapped.deliver (length (requests (Mapped.rt w))) err res w1
         = Some (Mapped.Returned w2) ∧
       promises (Mapped.rt w2) !! p = Some (Rejected err) ∧
       Mapped._vars w2 = Mapped._vars w) ∧
  (∀ (w : Mapped.world) (name : string) (path val err : jsval) (res : getres),
     truthy err = true →
     ∃ p w1 w2,
       Mapped.set name path val w = (p, w1) ∧
       Mapped.deliver (length (requests (Mapped.rt w))) err res w1
         = Some (Mapped.Returned w2) ∧
       promises (Mapped.rt w2) !! p = Some (Rejected err) ∧
       Mapped._vars w2 = Mapped._vars w) ∧
  (∀ (w : Simple.world) (name : string) (err : jsval) (res : getres),
     truthy err = true →
     ∃ p w1 w2,
       Simple.get name w = (p, w1) ∧
       Simple.deliver (length (requests (Simple.rt w))) err res w1 = Some w2 ∧
       promises (Simple.rt w2) !! p = Some (Rejected err) ∧
       Simple._vars w2 = Simple._vars w) ∧
  (∀ (w : Simple.world) (name : string) (val err : jsval) (res : getres),
     truthy err = true →
     ∃ p w1 w2,
       Simple.set name val w = (p, w1) ∧
       Simple.deliver (length (requests (Simple.rt w))) err res w1 = Some w2 ∧
       promises (Simple.rt w2) !! p = Some (Rejected err) ∧
       Simple._vars w2 = Simple._vars w).
Proof.
  split_and!.
  - intros w name path err res Herr. unfold Mapped._get. simpl.
    destruct (fresh_request_answered (KvGet path)
                (Mapped.GetCb name (length (promises (Mapped.rt w))))
                (Rejected err) (Mapped.rt w))
      as (_ & _ & r1' & Ht & Hp2 & _).
    simpl in *. do 3 eexists. split; [done|].
    unfold Mapped.deliver. simpl. by rewrite Ht /= Herr.
  - intros w name path val err res Herr.
    unfold Mapped.set. destruct (Mapped.set_args name path val) as [pth v]. simpl.
    destruct (fresh_request_answered (KvSet pth v)
                (Mapped.SetCb name pth v (length (promises (Mapped.rt w))))
                (Rejected err) (Mapped.rt w))
      as (_ & _ & r1' & Ht & Hp2 & _).
    simpl in *. do 3 eexists. split; [done|].
    unfold Mapped.deliver. simpl. by rewrite Ht /= Herr.
  - intros w name err res Herr. unfold Simple.get. simpl.
    destruct (fresh_request_answered (KvGet (JStr name))
                (Simple.GetCb name (length (promises (Simple.rt w))))
                (Rejected err) (Simple.rt w))
      as (_ & _ & r1' & Ht & Hp2 & _).
    simpl in *. do 3 eexists. split; [done|].
    unfold Simple.deliver. simpl. by rewrite Ht /= Herr.
  - intros w name val err res Herr. unfold Simple.set. simpl.
    destruct (fresh_request_answered (KvSet (JStr name) val)
                (Simple.SetCb name val (length (promises (Simple.rt w))))
                (Rejected err) (Simple.rt w))
      as (_ & _ & r1' & Ht & Hp2 & _).
    simpl in *. do 3 eexists. split; [done|].
    unfold Simple.deliver. simpl. by rewrite Ht /= Herr.
Qed.

(** C10: in the mapped variant [set(n, p, undefined)] is the two-argument
    form: the one call it issues writes [p] to the key [n], and when the
    client answers without error the entry of [n] records the path [n] and
    the value [p]. *)
Theorem set_with_undefined_value_is_two_argument_form
    (w : Mapped.world) (n : string) (p : jsval) :
  Mapped.set_args n p JUndefined = (JStr n, p) ∧
  calls (Mapped.rt (Mapped.set n p JUndefined w).2)
    = calls (Mapped.rt w) ++ [KvSet (JStr n) p] ∧
  ∀ (err : jsval) (res : getres),
    truthy err = false →
    ∃ w2,
      Mapped.deliver (length (requests (Mapped.rt w))) err res
        (Mapped.set n p JUndefined w).2 = Some (Mapped.Returned w2) ∧
      Mapped._vars w2 = <[n := Mapped.Entry (JStr n) (Some p)]> (Mapped._vars w) ∧
      Mapped.var n w2 = (p, w2).
Proof.
  split; [done|].
  unfold Mapped.set. simpl.
  destruct (fresh_request_answered (KvSet (JStr n) p)
              (Mapped.SetCb n (JStr n) p (length (promises (Mapped.rt w))))
              (Fulfilled JUndefined) (Mapped.rt w))
    as (Hc1 & _ & r1' & Ht & _ & _).
  simpl in *. split; [done|].
  intros err res Herr. unfold Mapped.deliver. simpl. rewrite Ht /= Herr.
  eexists. split_and!; try done.
  unfold Mapped.var. simpl. by rewrite lookup_insert_eq.
Qed.



(** * Registration, lookup and bulk resolution *)

(** C7, as stated, fails for the list variant: [task(keys)] creates no entry
    for a key, and a value cached under a key stays as it is. *)
Lemma list_task_registers_nothing :
  let w := Simple.run [Simple.OSet "x" (JStr "old");
                       Simple.OReply 0 JNull ResUndefined] Simple.new_Resolver in
  Simple._vars (Simple.task ["a"] Simple.new_Resolver).2 !! "a" = None ∧
  (Simple.var "x" w).1 = JStr "old" ∧
  (Simple.var "x" (Simple.task ["x"] w).2).1 = JStr "old".
Proof. done. Qed.

(** C7 (amended): in the mapped variant [task(vars)] itself, before the
    handle it returns is invoked, creates or overwrites the entry of every
    local name with the remote key of the pair and no value; it leaves the
    other entries alone and issues no request.  In the list variant
    [task(keys)] registers nothing: it only builds the handle, and the cache
    and the client are as before. *)
Theorem task_registers_pairs_in_mapped_variant_only :
  (∀ (w : Mapped.world) (vars : jsobj),
     NoDup (Object_keys vars) →
     ∃ hid w1,
       Mapped.task vars w = (hid, w1) ∧
       (∀ name key, (name, key) ∈ vars →
          Mapped._vars w1 !! name = Some (Mapped.Entry key None)) ∧
       (∀ name, name ∉ Object_keys vars →
          Mapped._vars w1 !! name = Mapped._vars w !! name) ∧
       Mapped.rt w1 = Mapped.rt w ∧
       Mapped.handles w1 !! hid = Some (Mapped.Handle (Object_keys vars) vars)) ∧
  (∀ (w : Simple.world) (keys : list string),
     ∃ hid w1,
       Simple.task keys w = (hid, w1) ∧
       Simple._vars w1 = Simple._vars w ∧
       Simple.rt w1 = Simple.rt w ∧
       Simple.handles w1 !! hid = Some keys).
Proof.
  split.
  - intros w vars Hnd. do 2 eexists. split; [done|]. simpl. split_and!.
    + intros name key Hin. rewrite mapped_register_lookup decide_True.
      * apply list_elem_of_fmap. by exists (name, key).
      * by rewrite (mapped_obj_get_elem vars name key).
    + intros name Hname. by rewrite mapped_register_lookup decide_False.
    + done.
    + rewrite lookup_app_r // Nat.sub_diag //.
  - intros w keys. do 2 eexists. split; [done|]. simpl. split_and!; try done.
    rewrite lookup_app_r // Nat.sub_diag //.
Qed.

(** C5: on a new resolver of the list variant, [var] of a name that was never
    registered, set or resolved is not [undefined] when the name is a method
    of [Object.prototype]: [this._vars[name]] finds the inherited function.
    The mapped variant's [vr && vr.value] returns [undefined] for the same
    names. *)
Theorem list_var_returns_inherited_member :
  (Simple.var "constructor" Simple.new_Resolver).1 = JInherited "constructor" ∧
  (Simple.var "toString" Simple.new_Resolver).1 = JInherited "toString" ∧
  (Simple.var "constructor" Simple.new_Resolver).1 ≠ JUndefined ∧
  (Mapped.var "constructor" Mapped.new_Resolver).1 = JUndefined ∧
  (Mapped.var "toString" Mapped.new_Resolver).1 = JUndefined.
Proof. split_and!; done. Qed.


(** C6: [var(name)] only reads the cache: the world it returns is the world
    it was called in, so the cache is unchanged and the client has received
    no call. *)
Theorem var_is_a_pure_cache_read :
  (∀ (name : string) (w : Mapped.world),
     (Mapped.var name w).2 = w ∧
     Mapped._vars (Mapped.var name w).2 = Mapped._vars w ∧
     calls (Mapped.rt (Mapped.var name w).2) = calls (Mapped.rt w)) ∧
  (∀ (name : string) (w : Simple.world),
     (Simple.var name w).2 = w ∧
     Simple._vars (Simple.var name w).2 = Simple._vars w ∧
     calls (Simple.rt (Simple.var name w).2) = calls (Simple.rt w)).
Proof. done. Qed.

(** C9: a handle that is invoked, and after any further operations invoked
    again, issues on each invocation one read per key: the second invocation
    appends the reads of all keys to the calls made so far, each of them a
    request that waits for the client, and has an aggregate of its own. *)
Theorem invoking_a_handle_twice_fetches_twice :
  (∀ (w : Mapped.world) (hid : nat) (h : Mapped.handle) (mid : list Mapped.op),
     Mapped.handles w !! hid = Some h →
     ∃ g1 w1 g2 w2,
       Mapped.run_task hid w = Some (g1, w1) ∧
       Mapped.run_task hid (Mapped.run mid w1) = Some (g2, w2) ∧
       g1 ≠ g2 ∧
       calls (Mapped.rt w1) = calls (Mapped.rt w) ++ Mapped.reads h ∧
       calls (Mapped.rt w2) = calls (Mapped.rt (Mapped.run mid w1)) ++ Mapped.reads h ∧
       (∀ i, i < length (Mapped.h_keys h) →
          req_done <$> requests (Mapped.rt w2)
                         !! (length (requests (Mapped.rt (Mapped.run mid w1))) + i)
            = Some false)) ∧
  (∀ (w : Simple.world) (hid : nat) (keys : list string) (mid : list Simple.op),
     Simple.handles w !! hid = Some keys →
     ∃ g1 w1 g2 w2,
       Simple.run_task hid w = Some (g1, w1) ∧
       Simple.run_task hid (Simple.run mid w1) = Some (g2, w2) ∧
       g1 ≠ g2 ∧
       calls (Simple.rt w1) = calls (Simple.rt w) ++ Simple.reads keys ∧
       calls (Simple.rt w2) = calls (Simple.rt (Simple.run mid w1)) ++ Simple.reads keys ∧
       (∀ i, i < length keys →
          req_done <$> requests (Simple.rt w2)
                         !! (length (requests (Simple.rt (Simple.run mid w1))) + i)
            = Some false)).
Proof.
  split; [exact mapped_run_task_again|exact simple_run_task_again].
Qed.


(** * The theorems at concrete inputs *)

Ltac by_computation := apply (bool_decide_unpack _); vm_compute; exact I.

(** The example of the specification: [task({a: "k1", b: "k2"})], the reads
    answered in reverse order with ["v2"] and ["v1"]. *)
Lemma mapped_bulk_resolution_caches_values_witness :
  let vars := [("a", JStr "k1"); ("b", JStr "k2")] in
  let ops := [Mapped.OTask vars] in
  let h := Mapped.Handle ["a"; "b"] vars in
  let ds := [(1, JNull, ResItem (JStr "v2")); (0, JUndefined, ResItem (JStr "v1"))] in
  let w := Mapped.run ops Mapped.new_Resolver in
  Mapped.handles w !! 0 = Some h ∧
  NoDup (Mapped.h_keys h) ∧
  ds.*1.*1 ≡ₚ seq (length (requests (Mapped.rt w))) (length (Mapped.h_keys h)) ∧
  Forall (λ d, truthy d.1.2 = false) ds ∧
  ∃ g w1 w2,
    Mapped.run_task 0 w = Some (g, w1) ∧
    Mapped.replies ds w1 = Some w2 ∧
    Mapped.cb_calls g w2 = [JUndefined] ∧
    calls (Mapped.rt w1) = [KvGet (JStr "k1"); KvGet (JStr "k2")] ∧
    Mapped.var "a" w2 = (JStr "v1", w2) ∧
    Mapped.var "b" w2 = (JStr "v2", w2).
Proof.
  intros vars ops h ds w.
  assert (Mapped.handles w !! 0 = Some h) as H1 by reflexivity.
  assert (NoDup (Mapped.h_keys h)) as H2 by by_computation.
  assert (ds.*1.*1 ≡ₚ seq (length (requests (Mapped.rt w))) (length (Mapped.h_keys h)))
    as H3 by apply perm_swap.
  assert (Forall (λ d, truthy d.1.2 = false) ds) as H4 by (by repeat constructor).
  split_and!; try assumption.
  destruct (mapped_bulk_resolution_caches_values ops 0 h ds H1 H2 H3 H4)
    as (g & w1 & w2 & Hrun & Hrep & Hcb & Hvals).
  exists g, w1, w2. split_and!; try assumption.
  - injection Hrun as _ <-. reflexivity.
  - apply (Hvals 0 "a" (JStr "k1") JUndefined (ResItem (JStr "v1")) eq_refl).
    by_computation.
  - apply (Hvals 1 "b" (JStr "k2") JNull (ResItem (JStr "v2")) eq_refl).
    by_computation.
Defined.



(** A fetch and a write answered with an error on a resolver that caches
    ["x"]. *)
Lemma failed_get_or_set_leaves_cache_witness :
  let e := JErr "connection refused" in
  let wm := Mapped.run [Mapped.OSet "x" (JStr "old") JUndefined;
                        Mapped.OReply 0 JNull ResUndefined] Mapped.new_Resolver in
  let ws := Simple.run [Simple.OSet "x" (JStr "old");
                        Simple.OReply 0 JNull ResUndefined] Simple.new_Resolver in
  truthy e = true ∧
  (∃ p w1 w2, Mapped._get "x" (JStr "x") wm = (p, w1) ∧
     Mapped.deliver 1 e ResUndefined w1 = Some (Mapped.Returned w2) ∧
     promises (Mapped.rt w2) !! p = Some (Rejected e) ∧
     Mapped.var "x" w2 = (JStr "old", w2)) ∧
  (∃ p w1 w2, Mapped.set "x" (JStr "new") JUndefined wm = (p, w1) ∧
     Mapped.deliver 1 e ResUndefined w1 = Some (Mapped.Returned w2) ∧
     promises (Mapped.rt w2) !! p = Some (Rejected e) ∧
     Mapped.var "x" w2 = (JStr "old", w2)) ∧
  (∃ p w1 w2, Simple.get "x" ws = (p, w1) ∧
     Simple.deliver 1 e ResUndefined w1 = Some w2 ∧
     promises (Simple.rt w2) !! p = Some (Rejected e) ∧
     Simple.var "x" w2 = (JStr "old", w2)) ∧
  (∃ p w1 w2, Simple.set "x" (JStr "new") ws = (p, w1) ∧
     Simple.deliver 1 e ResUndefined w1 = Some w2 ∧
     promises (Simple.rt w2) !! p = Some (Rejected e) ∧
     Simple.var "x" w2 = (JStr "old", w2)).
Proof.
  intros e wm ws. split; [reflexivity|].
  destruct failed_get_or_set_leaves_cache as (Hmg & Hms & Hsg & Hss).
  split_and!.
  - destruct (Hmg wm "x" (JStr "x") e ResUndefined eq_refl)
      as (p & w1 & w2 & Hop & Hdel & Hp & Hv).
    exists p, w1, w2. split_and!; try assumption.
    unfold Mapped.var. rewrite Hv. reflexivity.
  - destruct (Hms wm "x" (JStr "new") JUndefined e ResUndefined eq_refl)
      as (p & w1 & w2 & Hop & Hdel & Hp & Hv).
    exists p, w1, w2. split_and!; try assumption.
    unfold Mapped.var. rewrite Hv. reflexivity.
  - destruct (Hsg ws "x" e ResUndefined eq_refl)
      as (p & w1 & w2 & Hop & Hdel & Hp & Hv).
    exists p, w1, w2. split_and!; try assumption.
    unfold Simple.var. rewrite Hv. reflexivity.
  - destruct (Hss ws "x" (JStr "new") e ResUndefined eq_refl)
      as (p & w1 & w2 & Hop & Hdel & Hp & Hv).
    exists p, w1, w2. split_and!; try assumption.
    unfold Simple.var. rewrite Hv. reflexivity.
Defined.


(** [task({a: "k1", b: "k2"})] on a resolver that already caches ["a"]. *)
Lemma task_registers_pairs_in_mapped_variant_only_witness :
  let vars := [("a", JStr "k1"); ("b", JStr "k2")] in
  let w := Mapped.run [Mapped.OSet "a" (JStr "old") JUndefined;
                       Mapped.OReply 0 JNull ResUndefined] Mapped.new_Resolver in
  NoDup (Object_keys vars) ∧
  Mapped.var "a" w = (JStr "old", w) ∧
  ∃ hid w1,
    Mapped.task vars w = (hid, w1) ∧
    Mapped._vars w1 !! "a" = Some (Mapped.Entry (JStr "k1") None) ∧
    Mapped._vars w1 !! "b" = Some (Mapped.Entry (JStr "k2") None) ∧
    calls (Mapped.rt w1) = calls (Mapped.rt w).
Proof.
  intros vars w.
  assert (NoDup (Object_keys vars)) as Hnd by by_computation.
  split_and!; [assumption|reflexivity|].
  destruct (proj1 task_registers_pairs_in_mapped_variant_only w vars Hnd)
    as (hid & w1 & Htask & Hreg & _ & Hrt & _).
  exists hid, w1. split_and!; [assumption| | |by rewrite Hrt].
  - apply Hreg. by_computation.
  - apply Hreg. by_computation.
Defined.


(** A handle invoked, its read answered, and the handle invoked again. *)
Lemma invoking_a_handle_twice_fetches_twice_witness :
  let wm := (Mapped.task [("a", JStr "k1")] Mapped.new_Resolver).2 in
  let ws := (Simple.task ["a"] Simple.new_Resolver).2 in
  (Mapped.handles wm !! 0 = Some (Mapped.Handle ["a"] [("a", JStr "k1")]) ∧
   ∃ g1 w1 g2 w2,
     Mapped.run_task 0 wm = Some (g1, w1) ∧
     Mapped.run_task 0
       (Mapped.run [Mapped.OReply 0 JNull (ResItem (JStr "v1"))] w1) = Some (g2, w2) ∧
     g1 ≠ g2 ∧
     calls (Mapped.rt w2) = [KvGet (JStr "k1"); KvGet (JStr "k1")]) ∧
  (Simple.handles ws !! 0 = Some ["a"] ∧
   ∃ g1 w1 g2 w2,
     Simple.run_task 0 ws = Some (g1, w1) ∧
     Simple.run_task 0
       (Simple.run [Simple.OReply 0 JNull (ResItem (JStr "v1"))] w1) = Some (g2, w2) ∧
     g1 ≠ g2 ∧
     calls (Simple.rt w2) = [KvGet (JStr "a"); KvGet (JStr "a")]).
Proof.
  intros wm ws. split; (split; [reflexivity|]).
  - destruct (proj1 invoking_a_handle_twice_fetches_twice wm 0 _
                [Mapped.OReply 0 JNull (ResItem (JStr "v1"))] eq_refl)
      as (g1 & w1 & g2 & w2 & Hr1 & Hr2 & Hg & _ & _ & _).
    exists g1, w1, g2, w2. split_and!; try assumption.
    injection Hr1 as <- <-. injection Hr2 as <- <-. reflexivity.
  - destruct (proj2 invoking_a_handle_twice_fetches_twice ws 0 _
                [Simple.OReply 0 JNull (ResItem (JStr "v1"))] eq_refl)
      as (g1 & w1 & g2 & w2 & Hr1 & Hr2 & Hg & _ & _ & _).
    exists g1, w1, g2, w2. split_and!; try assumption.
    injection Hr1 as <- <-. injection Hr2 as <- <-. reflexivity.
Defined.

(** [set("x", "v", undefined)] writes ["v"] to the key ["x"]. *)
Lemma set_with_undefined_value_is_two_argument_form_witness :
  truthy JNull = false ∧
  calls (Mapped.rt (Mapped.set "x" (JStr "v") JUndefined Mapped.new_Resolver).2)
    = [KvSet (JStr "x") (JStr "v")] ∧
  ∃ w2,
    Mapped.deliver 0 JNull ResUndefined
      (Mapped.set "x" (JStr "v") JUndefined Mapped.new_Resolver).2
      = Some (Mapped.Returned w2) ∧
    Mapped.var "x" w2 = (JStr "v", w2).
Proof.
  split; [reflexivity|].
  destruct (set_with_undefined_value_is_two_argument_form Mapped.new_Resolver "x"
              (JStr "v")) as (_ & Hcalls & Hok).
  split; [exact Hcalls|].
  destruct (Hok JNull ResUndefined eq_refl) as (w2 & Hdel & _ & Hvar).
  by exists w2.
Defined.

(** * Further properties of the mapped variant *)

Section MappedMore.
Import Mapped.

(** X1: whatever the client answers to distinct reads of an invocation
    (errors included, in any order, some reads perhaps unanswered), the
    invocation itself leaves the cache alone, and afterwards: the entry of a
    key whose read was answered without error holds the value and the path it
    had; the entry of a key whose read failed or is still waiting is as it
    was; no other entry is touched. *)
Theorem mapped_answers_decide_the_cache (ops : list op) (hid : nat) (h : handle)
    (ds : list (nat * jsval * getres)) :
  let w := run ops new_Resolver in
  let n0 := length (requests (rt w)) in
  handles w !! hid = Some h →
  NoDup (h_keys h) →
  NoDup ds.*1.*1 →
  Forall (λ d, n0 ≤ d.1.1 < n0 + length (h_keys h)) ds →
  ∃ g w1 w2,
    run_task hid w = Some (g, w1) ∧
    replies ds w1 = Some w2 ∧
    _vars w1 = _vars w ∧
    (∀ i key err res,
       h_keys h !! i = Some key → (n0 + i, err, res) ∈ ds → truthy err = false →
       var key w2 = (res_and_Value res, w2) ∧
       path <$> _vars w2 !! key = path <$> _vars w !! key) ∧
    (∀ i key err res,
       h_keys h !! i = Some key → (n0 + i, err, res) ∈ ds → truthy err = true →
       _vars w2 !! key = _vars w !! key) ∧
    (∀ i key, h_keys h !! i = Some key → n0 + i ∉ ds.*1.*1 →
       _vars w2 !! key = _vars w !! key) ∧
    (∀ name, name ∉ h_keys h → _vars w2 !! name = _vars w !! name).
Proof.
  intros w n0 Hh Hnd Hids Hrange.
  pose proof (mapped_reachable_registered ops) as Hreg. fold w in Hreg.
  destruct (mapped_batch w hid h ds Hreg Hh Hnd Hids Hrange)
    as (w1 & w2 & Hrun & Hrep & Hv & _ & _ & _ & (Hc & Hf)).
  fold n0 in Hc, Hf.
  assert (Forall (λ d : nat * jsval * getres, n0 ≤ d.1.1) ds) as Hge.
  { eapply Forall_impl; [exact Hrange|]. simpl. lia. }
  exists (length (groups (rt w))), w1, w2. split_and!; try done.
  - intros i key err res Hk Hin Herr.
    destruct (Hc _ _ Hk) as (e0 & He0 & Hcur).
    pose proof (status_hist n0 ds (n0 + i) err res Hge Hids Hin) as Hs.
    replace (n0 + i - n0) with i in Hs by lia.
    rewrite Hs /settled_by Herr in Hcur.
    unfold var. by rewrite Hcur He0.
  - intros i key err res Hk Hin Herr.
    destruct (Hc _ _ Hk) as (e0 & He0 & Hcur).
    pose proof (status_hist n0 ds (n0 + i) err res Hge Hids Hin) as Hs.
    replace (n0 + i - n0) with i in Hs by lia.
    rewrite Hs /settled_by Herr in Hcur. by rewrite Hcur He0.
  - intros i key Hk Hnin.
    destruct (Hc _ _ Hk) as (e0 & He0 & Hcur).
    pose proof (status_hist_fresh n0 ds (n0 + i) Hge) as Hs.
    replace (n0 + i - n0) with i in Hs by lia.
    rewrite Hs in Hcur; [lia|done|]. by rewrite Hcur He0.
Qed.

(** X2: [task({})(cb)]: with no pair to fetch the handle calls [cb()] at
    once, without any call on the client and without touching the cache. *)
Theorem mapped_empty_task_completes_at_once (w : world) :
  ∃ g w2,
    run_task (task [] w).1 (task [] w).2 = Some (g, w2) ∧
    cb_calls g w2 = [JUndefined] ∧
    calls (rt w2) = calls (rt w) ∧
    _vars w2 = _vars w.
Proof.
  unfold run_task. simpl. rewrite lookup_app_r // Nat.sub_diag /=.
  do 2 eexists. split; [done|]. unfold cb_calls, calls. simpl.
  by rewrite lookup_app_r // Nat.sub_diag /=.
Qed.


(** X4: [_get(name, path)] for a name that has an entry: one read of
    [path]; when the client answers without error the promise is resolved
    with [res && res.Value] and only the [value] of the entry changes: the
    entry keeps the path it had, which need not be the path that was read. *)
Theorem mapped_get_keeps_entry_path (w : world) (name : string) (pth err : jsval)
    (res : getres) (vr : entry) :
  _vars w !! name = Some vr →
  truthy err = false →
  ∃ p w1 w2,
    _get name pth w = (p, w1) ∧
    calls (rt w1) = calls (rt w) ++ [KvGet pth] ∧
    deliver (length (requests (rt w))) err res w1 = Some (Returned w2) ∧
    promises (rt w2) !! p = Some (Fulfilled (res_and_Value res)) ∧
    _vars w2 = <[name := Entry (path vr) (Some (res_and_Value res))]> (_vars w) ∧
    var name w2 = (res_and_Value res, w2).
Proof.
  intros Hn Herr. unfold _get. simpl.
  destruct (fresh_request_answered (KvGet pth)
              (GetCb name (length (promises (rt w))))
              (Fulfilled (res_and_Value res)) (rt w))
    as (Hc1 & _ & r1' & Ht & Hp2 & _).
  simpl in *. do 3 eexists. split; [done|]. simpl. split; [done|].
  unfold deliver. simpl. rewrite Ht /= Herr Hn.
  split_and!; try done.
  unfold var. simpl. by rewrite lookup_insert_eq.
Qed.


(** X6: no operation and no answer of the client ever removes an entry
    from the cache: a name that has an entry keeps one, whatever the program
    does next (there is no eviction). *)
Theorem mapped_nothing_is_evicted (ops : list op) (w : world) (name : string) :
  is_Some (_vars w !! name) →
  is_Some (_vars (run ops w) !! name).
Proof. intros H. by apply (mapped_run_grows ops w). Qed.

(** X7: an answer of the client never makes the resolver issue a call:
    whatever the callback does (resolve, reject or throw), the calls on the
    client and the handles are as before, and no promise is created. *)
Theorem mapped_answers_issue_no_call (w : world) (id : nat) (err : jsval)
    (res : getres) :
  calls (rt (exec w (OReply id err res))) = calls (rt w) ∧
  handles (exec w (OReply id err res)) = handles w ∧
  length (promises (rt (exec w (OReply id err res)))) = length (promises (rt w)).
Proof.
  simpl. unfold deliver.
  destruct (take_callback id (rt w)) as [[cb r]|] eqn:Ht; [|done].
  pose proof (calls_take_callback _ _ _ _ Ht) as Hc.
  destruct (take_callback_promises _ _ _ _ Ht) as [Hp _].
  assert (∀ p s, length (promises (settle p s r)) = length (promises (rt w))) as Hl.
  { intros p s. unfold settle. rewrite -Hp.
    destruct (promises r !! p) as [[]|]; simpl; by rewrite ?length_insert. }
  unfold run_callback.
  destruct cb as [name p|name pth val p]; simpl;
    destruct (truthy err); try destruct (_vars w !! name);
    try case_decide; simpl;
    rewrite /calls /= ?calls_settle ?Hl; by rewrite -?Hp.
Qed.

Lemma mapped_batch_handles (w : world) (hid : nat) (h : handle)
    (ds : list (nat * jsval * getres)) :
  registered w → handles w !! hid = Some h → NoDup (h_keys h) →
  NoDup ds.*1.*1 →
  Forall (λ d, length (requests (rt w)) ≤ d.1.1
               < length (requests (rt w)) + length (h_keys h)) ds →
  ∃ w1 w2,
    run_task hid w = Some (length (groups (rt w)), w1) ∧
    replies ds w1 = Some w2 ∧
    handles w2 = handles w ∧ registered w2 ∧
    cache_inv (h_keys h) (_vars w) (hist (length (requests (rt w))) ds) (_vars w2).
Proof.
  intros Hreg Hh Hnd Hids Hrange.
  destruct (mapped_invoke_spec h w) as (w1 & Hinv & Hv & Hhs & Hcalls & _ & Hb).
  assert (cache_inv (h_keys h) (_vars w) [] (_vars w1)) as Hc.
  { rewrite Hv. split; [|done]. intros i key Hk.
    destruct (Hreg _ _ Hh) as [_ Hkeys].
    destruct (Hkeys key) as [e0 He0]; [by eapply list_elem_of_lookup_2|].
    by exists e0. }
  destruct (mapped_replies_inv (h_vars h) (h_keys h) (length (requests (rt w)))
              (length (promises (rt w))) (length (groups (rt w))) (_vars w) ds [] w1)
    as (w2 & Hrep & _ & Hc2 & _ & Hh2); try done.
  { simpl. apply hist_NoDup; [|done].
    eapply Forall_impl; [exact Hrange|]. simpl. lia. }
  exists w1, w2. unfold run_task. rewrite Hh /= Hinv.
  split_and!; try done; [congruence|].
  intros hid' h' Hh'. rewrite Hh2 Hhs in Hh'.
  destruct (Hreg _ _ Hh') as [Hk' Hreg']. split; [done|].
  intros key Hkey. destruct Hc2 as [Hc2 Hf2].
  destruct (decide (key ∈ h_keys h)) as [Hin|Hnin].
  - apply list_elem_of_lookup in Hin as [i Hi].
    destruct (Hc2 _ _ Hi) as (e0 & _ & ->). by eexists.
  - rewrite Hf2 //. by apply Hreg'.
Qed.

(** X15: resolving again is idempotent: when a handle is invoked, all its
    reads are answered without error, the handle is invoked again and the
    client answers every read with the value it gave the first time, the
    cache after the second resolution is the cache after the first one.  The
    requests of the second invocation follow those of the first one. *)
Theorem mapped_resolution_is_idempotent (ops : list op) (hid : nat) (h : handle)
    (ds ds' : list (nat * jsval * getres)) :
  let w := run ops new_Resolver in
  let n0 := length (requests (rt w)) in
  let n := length (h_keys h) in
  handles w !! hid = Some h →
  NoDup (h_keys h) →
  ds.*1.*1 ≡ₚ seq n0 n →
  Forall (λ d, truthy d.1.2 = false) ds →
  ds'.*1.*1 ≡ₚ seq (n0 + n) n →
  Forall (λ d, truthy d.1.2 = false) ds' →
  (∀ i err res err' res',
     (n0 + i, err, res) ∈ ds → (n0 + n + i, err', res') ∈ ds' →
     res_and_Value res' = res_and_Value res) →
  ∃ g w1 w2 g' w3 w4,
    run_task hid w = Some (g, w1) ∧
    replies ds w1 = Some w2 ∧
    run_task hid w2 = Some (g', w3) ∧
    replies ds' w3 = Some w4 ∧
    g' ≠ g ∧
    _vars w4 = _vars w2.
Proof.
  intros w n0 n Hh Hnd Hperm Hok Hperm' Hok' Hsame.
  pose proof (mapped_reachable_registered ops) as Hreg. fold w in Hreg.
  assert (∀ m (es : list (nat * jsval * getres)),
            es.*1.*1 ≡ₚ seq m n →
            NoDup es.*1.*1 ∧
            Forall (λ d, m ≤ d.1.1 < m + n) es ∧
            Forall (λ d : nat * jsval * getres, m ≤ d.1.1) es ∧
            ∀ i, i < n → ∃ err res, (m + i, err, res) ∈ es) as Hp.
  { intros m es Hes. split_and!.
    - rewrite Hes. apply NoDup_seq.
    - apply Forall_forall. intros d Hd.
      assert (d.1.1 ∈ seq m n) as ?%elem_of_seq; [|done].
      rewrite -Hes. by do 2 apply list_elem_of_fmap_2.
    - apply Forall_forall. intros d Hd.
      assert (d.1.1 ∈ seq m n) as [? _]%elem_of_seq; [|done].
      rewrite -Hes. by do 2 apply list_elem_of_fmap_2.
    - intros i Hi. assert (m + i ∈ es.*1.*1) as Hin.
      { rewrite Hes. apply elem_of_seq. lia. }
      apply list_elem_of_fmap in Hin as [x [Hx Hin]].
      apply list_elem_of_fmap in Hin as [[[id err] res] [-> Hin]].
      simpl in Hx. subst id. by exists err, res. }
  destruct (Hp _ _ Hperm) as (Hids & Hrange & Hge & Hall).
  destruct (mapped_batch_handles w hid h ds Hreg Hh Hnd Hids Hrange)
    as (w1 & w2 & Hrun & Hrep & Hh2 & Hreg2 & (Hc & Hf)).
  fold n0 in Hc, Hf.
  assert (length (requests (rt w2)) = n0 + n) as Hn1.
  { destruct (mapped_batch w hid h ds Hreg Hh Hnd Hids Hrange)
      as (w1' & w2' & Hrun' & Hrep' & _ & Hcalls & Hcalls2 & _).
    assert (w1' = w1) as -> by congruence.
    assert (w2' = w2) as -> by congruence.
    rewrite Hcalls in Hcalls2. apply (f_equal length) in Hcalls2.
    by rewrite /calls /reads length_app !length_fmap in Hcalls2. }
  rewrite -Hn1 in Hperm' Hsame.
  destruct (Hp _ _ Hperm') as (Hids' & Hrange' & Hge' & Hall').
  rewrite -Hh2 in Hh.
  destruct (mapped_batch_handles w2 hid h ds' Hreg2 Hh Hnd Hids' Hrange')
    as (w3 & w4 & Hrun' & Hrep' & _ & _ & (Hc' & Hf')).
  exists (length (groups (rt w))), w1, w2, (length (groups (rt w2))), w3, w4.
  split_and!; try done.
  - destruct (mapped_invoke_spec h w) as (w1' & Hi1 & _ & _ & _ & _ & (_ & Hg & _)).
    assert (w1' = w1) as ->.
    { unfold run_task in Hrun. rewrite -Hh2 Hh /= in Hrun. congruence. }
    assert (grows w1 w2) as (_ & _ & Hlen).
    { clear -Hrep. revert w1 Hrep.
      induction ds as [|[[id err] res] ds IH]; intros w1 Hrep; simpl in Hrep.
      - injection Hrep as <-. apply mapped_grows_refl.
      - destruct (deliver id err res w1) as [[w'|w']|] eqn:Hd; try done.
        eapply mapped_grows_trans; [|by apply IH].
        exact (mapped_deliver_grows _ _ _ _ _ Hd). }
    apply lookup_lt_Some in Hg. lia.
  - apply map_eq. intros name.
    destruct (decide (name ∈ h_keys h)) as [Hin|Hnin]; [|by apply Hf'].
    apply list_elem_of_lookup in Hin as [i Hi].
    pose proof (lookup_lt_Some _ _ _ Hi) as Hlt.
    destruct (Hall i Hlt) as (err & res & Hin).
    destruct (Hall' i Hlt) as (err' & res' & Hin').
    destruct (Hc _ _ Hi) as (e0 & _ & Hcur).
    destruct (Hc' _ _ Hi) as (e1 & He1 & Hcur').
    pose proof (status_hist n0 ds (n0 + i) err res Hge Hids Hin) as Hs.
    replace (n0 + i - n0) with i in Hs by lia.
    pose proof (status_hist _ ds' _ err' res' Hge' Hids' Hin') as Hs'.
    replace (length (requests (rt w2)) + i - length (requests (rt w2)))
      with i in Hs' by lia.
    rewrite Forall_forall in Hok. specialize (Hok _ Hin). simpl in Hok.
    rewrite Forall_forall in Hok'. specialize (Hok' _ Hin'). simpl in Hok'.
    rewrite Hs /settled_by Hok in Hcur.
    rewrite Hs' /settled_by Hok' in Hcur'.
    rewrite Hcur in He1. injection He1 as <-.
    rewrite Hcur' Hcur /=. by rewrite (Hsame _ _ _ _ _ Hin Hin').
Qed.

End MappedMore.

(** * Further properties of the list variant *)



Section SimpleMore.
Import Simple.





(** X10: [task([])()]: with no name to fetch the promise the handle returns
    is fulfilled at once with the empty object, without any call on the
    client and without touching the cache. *)
Theorem simple_empty_task_completes_at_once (w : world) :
  ∃ g w2,
    run_task (task [] w).1 (task [] w).2 = Some (g, w2) ∧
    task_result [] g w2 = TaskFulfilled ∅ ∧
    calls (rt w2) = calls (rt w) ∧
    _vars w2 = _vars w.
Proof.
  unfold run_task. simpl. rewrite lookup_app_r // Nat.sub_diag /=.
  do 2 eexists. split; [done|]. unfold task_result, calls. simpl.
  by rewrite lookup_app_r // Nat.sub_diag /=.
Qed.


Lemma simple_exec_keeps_entries (w : world) (o : op) (name : string) :
  is_Some (_vars w !! name) → is_Some (_vars (exec w o) !! name).
Proof.
  intros Hn. destruct o as [keys|hid|n|n|n val|id err res]; simpl; try done.
  - unfold run_task. destruct (handles w !! hid) as [keys|]; [|done]. simpl.
    destruct (simple_invoke_spec keys w) as (w' & -> & Hv & _). simpl.
    by rewrite Hv.
  - unfold deliver. destruct (take_callback id (rt w)) as [[cb r]|]; [|done].
    simpl. unfold run_callback.
    destruct cb as [n p|n val p]; simpl; destruct (truthy err); simpl; try done;
      (destruct (decide (name = n)) as [->|];
        [by rewrite lookup_insert_eq|by rewrite lookup_insert_ne]).
Qed.

(** X12: no operation and no answer of the client ever removes a name from
    the cache: a name that is cached stays cached, whatever the program does
    next (there is no eviction). *)
Theorem simple_nothing_is_evicted (ops : list op) (w : world) (name : string) :
  is_Some (_vars w !! name) →
  is_Some (_vars (run ops w) !! name).
Proof.
  revert w. induction ops as [|o ops IH]; intros w Hn; [done|].
  simpl. by apply IH, simple_exec_keeps_entries.
Qed.

(** X13: an answer of the client never makes the resolver issue a call:
    the calls on the client and the handles are as before, and no promise is
    created. *)
Theorem simple_answers_issue_no_call (w : world) (id : nat) (err : jsval)
    (res : getres) :
  calls (rt (exec w (OReply id err res))) = calls (rt w) ∧
  handles (exec w (OReply id err res)) = handles w ∧
  length (promises (rt (exec w (OReply id err res)))) = length (promises (rt w)).
Proof.
  simpl. unfold deliver.
  destruct (take_callback id (rt w)) as [[cb r]|] eqn:Ht; [|done].
  pose proof (calls_take_callback _ _ _ _ Ht) as Hc.
  destruct (take_callback_promises _ _ _ _ Ht) as [Hp _].
  assert (∀ p s, length (promises (settle p s r)) = length (promises (rt w))) as Hl.
  { intros p s. unfold settle. rewrite -Hp.
    destruct (promises r !! p) as [[]|]; simpl; by rewrite ?length_insert. }
  unfold run_callback. simpl.
  destruct cb as [name p|name val p]; simpl; destruct (truthy err); simpl;
    rewrite /calls /= ?calls_settle ?Hl; by rewrite -?Hp.
Qed.



End SimpleMore.

(** * The further properties at concrete inputs *)

(** Three registered names: the read of ["b"] fails, then the read of ["a"]
    is answered, the read of ["c"] stays unanswered. *)
Lemma mapped_answers_decide_the_cache_witness :
  let vars := [("a", JStr "k1"); ("b", JStr "k2"); ("c", JStr "k3")] in
  let ops := [Mapped.OTask vars] in
  let h := Mapped.Handle ["a"; "b"; "c"] vars in
  let ds := [(1, JErr "down", ResUndefined); (0, JNull, ResItem (JStr "v1"))] in
  let w := Mapped.run ops Mapped.new_Resolver in
  Mapped.handles w !! 0 = Some h ∧
  NoDup (Mapped.h_keys h) ∧
  NoDup ds.*1.*1 ∧
  Forall (λ d, 0 ≤ d.1.1 < 0 + 3) ds ∧
  ∃ g w1 w2,
    Mapped.run_task 0 w = Some (g, w1) ∧
    Mapped.replies ds w1 = Some w2 ∧
    Mapped.var "a" w2 = (JStr "v1", w2) ∧
    Mapped._vars w2 !! "b" = Some (Mapped.Entry (JStr "k2") None) ∧
    Mapped._vars w2 !! "c" = Some (Mapped.Entry (JStr "k3") None) ∧
    Mapped._vars w2 !! "d" = None.
Proof.
  intros vars ops h ds w.
  assert (NoDup (Mapped.h_keys h)) as Hkeys by by_computation.
  assert (NoDup ds.*1.*1) as Hids by by_computation.
  assert (Forall (λ d : nat * jsval * getres, 0 ≤ d.1.1 < 0 + 3) ds) as Hrange.
  { repeat constructor. }
  split_and!; try assumption; try reflexivity.
  destruct (mapped_answers_decide_the_cache ops 0 h ds eq_refl Hkeys Hids Hrange)
    as (g & w1 & w2 & Hrun & Hrep & _ & Hok & Hfail & Hwait & Hother).
  exists g, w1, w2. split_and!; try assumption.
  - apply (Hok 0 "a" JNull (ResItem (JStr "v1")) eq_refl); [by_computation|reflexivity].
  - assert ((0 + 1, JErr "down", ResUndefined) ∈ ds) as Hin by by_computation.
    exact (Hfail 1 "b" (JErr "down") ResUndefined eq_refl Hin eq_refl).
  - assert (0 + 2 ∉ ds.*1.*1) as Hnin by by_computation.
    exact (Hwait 2 "c" eq_refl Hnin).
  - assert ("d" ∉ Mapped.h_keys h) as Hnin by by_computation.
    exact (Hother "d" Hnin).
Defined.


(** ["x"] was set at the path ["p1"]; a read of ["p2"] for ["x"] brings the
    value but the entry still says ["p1"]. *)
Lemma mapped_get_keeps_entry_path_witness :
  let w := Mapped.run [Mapped.OSet "x" (JStr "p1") (JStr "v0");
                       Mapped.OReply 0 JNull ResUndefined] Mapped.new_Resolver in
  Mapped._vars w !! "x" = Some (Mapped.Entry (JStr "p1") (Some (JStr "v0"))) ∧
  truthy JNull = false ∧
  ∃ p w1 w2,
    Mapped._get "x" (JStr "p2") w = (p, w1) ∧
    calls (Mapped.rt w1) = [KvSet (JStr "p1") (JStr "v0"); KvGet (JStr "p2")] ∧
    Mapped.deliver 1 JNull (ResItem (JStr "v")) w1 = Some (Mapped.Returned w2) ∧
    Mapped._vars w2 !! "x" = Some (Mapped.Entry (JStr "p1") (Some (JStr "v"))).
Proof.
  intros w. split; [reflexivity|]. split; [reflexivity|].
  destruct (mapped_get_keeps_entry_path w "x" (JStr "p2") JNull (ResItem (JStr "v"))
              _ eq_refl eq_refl)
    as (p & w1 & w2 & Hget & Hc & Hdel & _ & Hv & _).
  exists p, w1, w2. split_and!; try assumption.
  rewrite Hv. reflexivity.
Defined.


(** ["x"] is cached; a failed bulk resolution of other names follows. *)
Lemma mapped_nothing_is_evicted_witness :
  let w := Mapped.run [Mapped.OSet "x" (JStr "v") JUndefined;
                       Mapped.OReply 0 JNull ResUndefined] Mapped.new_Resolver in
  let ops := [Mapped.OTask [("a", JStr "k1")]; Mapped.ORun 0;
              Mapped.OReply 1 (JErr "down") ResUndefined] in
  is_Some (Mapped._vars w !! "x") ∧
  is_Some (Mapped._vars (Mapped.run ops w) !! "x").
Proof.
  intros w ops.
  assert (is_Some (Mapped._vars w !! "x")) as H by (by eexists).
  split; [assumption|].
  exact (mapped_nothing_is_evicted ops w "x" H).
Defined.

(** The same value is read twice. *)
Lemma mapped_resolution_is_idempotent_witness :
  let ops := [Mapped.OTask [("a", JStr "k1")]] in
  let h := Mapped.Handle ["a"] [("a", JStr "k1")] in
  let ds := [(0, JNull, ResItem (JStr "v"))] in
  let ds' := [(1, JUndefined, ResItem (JStr "v"))] in
  let w := Mapped.run ops Mapped.new_Resolver in
  Mapped.handles w !! 0 = Some h ∧
  NoDup (Mapped.h_keys h) ∧
  ds.*1.*1 ≡ₚ seq 0 1 ∧
  Forall (λ d, truthy d.1.2 = false) ds ∧
  ds'.*1.*1 ≡ₚ seq (0 + 1) 1 ∧
  Forall (λ d, truthy d.1.2 = false) ds' ∧
  ∃ g w1 w2 g' w3 w4,
    Mapped.run_task 0 w = Some (g, w1) ∧
    Mapped.replies ds w1 = Some w2 ∧
    Mapped.run_task 0 w2 = Some (g', w3) ∧
    Mapped.replies ds' w3 = Some w4 ∧
    g' ≠ g ∧
    Mapped._vars w4 = Mapped._vars w2.
Proof.
  intros ops h ds ds' w.
  assert (NoDup (Mapped.h_keys h)) as Hkeys by by_computation.
  assert (ds.*1.*1 ≡ₚ seq 0 1) as Hperm by reflexivity.
  assert (ds'.*1.*1 ≡ₚ seq (0 + 1) 1) as Hperm' by reflexivity.
  assert (Forall (λ d : nat * jsval * getres, truthy d.1.2 = false) ds) as Hok.
  { by repeat constructor. }
  assert (Forall (λ d : nat * jsval * getres, truthy d.1.2 = false) ds') as Hok'.
  { by repeat constructor. }
  split_and!; try assumption; try reflexivity.
  apply (mapped_resolution_is_idempotent ops 0 h ds ds' eq_refl Hkeys Hperm Hok
           Hperm' Hok').
  intros i err res err' res' Hin Hin'.
  apply list_elem_of_singleton in Hin. apply list_elem_of_singleton in Hin'.
  by simplify_eq.
Defined.




(** ["x"] is cached; a failed bulk resolution of another name follows. *)
Lemma simple_nothing_is_evicted_witness :
  let w := Simple.run [Simple.OSet "x" (JStr "v"); Simple.OReply 0 JNull ResUndefined]
             Simple.new_Resolver in
  let ops := [Simple.OTask ["a"]; Simple.ORun 0;
              Simple.OReply 1 (JErr "down") ResUndefined] in
  is_Some (Simple._vars w !! "x") ∧
  is_Some (Simple._vars (Simple.run ops w) !! "x").
Proof.
  intros w ops.
  assert (is_Some (Simple._vars w !! "x")) as H by (by eexists).
  split; [assumption|].
  exact (simple_nothing_is_evicted ops w "x" H).
Defined.

